(** * NFA to DFA conversion and DFA minimization: a shallow embedding

    The Python sources [NFA_Deserializer.py] and [DFA_Builder.py] are
    embedded as Rocq functions over stdpp's finite maps and sets.

    - a Python [str] is a [string], read as the UTF-8 bytes of the text;
    - a Python [set] / [frozenset] of strings is a [gset string]; every
      enumeration of a set ([list(s)], [for x in s], [next(iter(s))]) goes
      through an enumeration function [iter_set], about which the theorems
      assume only that it lists the members of the set, each once;
    - a Python [dict] is a [gmap]; its [items()] are [map_to_list];
    - a [while] loop is a [Fixpoint] on a fuel counter that the enclosing
      function computes itself; running out of fuel is the outcome
      [OutOfFuel], and the theorems show that it does not happen;
    - a Python exception is the outcome [Raise e]. *)

From Stdlib Require Import Ascii String.
From stdpp Require Import gmap strings list fin_maps pretty sorting.

Open Scope string_scope.
Open Scope list_scope.

(** ** Outcomes of a call *)

Inductive exn : Type :=
  | FileNotFoundError
  | ValueError
  | AttributeError
  | KeyError
  | IndexError
  | StopIteration.

Inductive result (A : Type) : Type :=
  | Ok (a : A)
  | Raise (e : exn)
  | OutOfFuel
  | Unsupported.

Arguments Ok {A} a.
Arguments Raise {A} e.
Arguments OutOfFuel {A}.
Arguments Unsupported {A}.

#[global] Instance result_ret : MRet result := λ A a, Ok a.

#[global] Instance result_bind : MBind result := λ A B f r,
  match r with
  | Ok a => f a
  | Raise e => Raise e
  | OutOfFuel => OutOfFuel
  | Unsupported => Unsupported
  end.

(** [d[k]] on a dict: [KeyError] when the key is absent. *)
Definition getitem `{Countable K} {V : Type} (d : gmap K V) (k : K) : result V :=
  match d !! k with
  | Some v => Ok v
  | None => Raise KeyError
  end.

(** [for x in l: st = body(st, x)], stopping at the first exception. *)
Fixpoint for_each {A St : Type} (body : St → A → result St) (l : list A) (st : St)
  : result St :=
  match l with
  | [] => Ok st
  | x :: l' => st' ← body st x; for_each body l' st'
  end.

(** ** Strings *)

(** [str.lower()] on the ASCII letters.  On other characters Python's
    [lower] differs, but no non-ASCII character lowercases to one of the
    letters of "epsilon", so the comparison with that word is the same. *)
Definition lower_ascii (a : ascii) : ascii :=
  let n := nat_of_ascii a in
  if (65 <=? n)%nat && (n <=? 90)%nat then ascii_of_nat (n + 32) else a.

Fixpoint lower (s : string) : string :=
  match s with
  | EmptyString => EmptyString
  | String a s' => String (lower_ascii a) (lower s')
  end.

(** "ε", the Greek letter, in UTF-8. *)
Definition eps_greek : string :=
  String "206"%char (String "181"%char EmptyString).

(** "Îµ", the two characters that the bytes of the Greek letter
    become when they are read as Latin-1, in UTF-8. *)
Definition eps_misencoded : string :=
  String "195"%char (String "142"%char
    (String "194"%char (String "181"%char EmptyString))).

(** The test of [get_epsilon_closure]:
    [symbol == "" or symbol.lower() == "epsilon" or symbol == "Îµ"
     or symbol == "ε"]. *)
Definition is_epsilon (symbol : string) : bool :=
  bool_decide (symbol = "")
  || bool_decide (lower symbol = "epsilon")
  || bool_decide (symbol = eps_misencoded)
  || bool_decide (symbol = eps_greek).

(** The test of [convert_nfa_to_dfa]:
    [symbol != "" and symbol.lower() != "epsilon" and symbol != "Îµ"
     and symbol != "ε"]. *)
Definition is_alphabet_symbol (symbol : string) : bool :=
  bool_decide (symbol ≠ "")
  && bool_decide (lower symbol ≠ "epsilon")
  && bool_decide (symbol ≠ eps_misencoded)
  && bool_decide (symbol ≠ eps_greek).

(** [f"S{i}"] *)
Definition state_name (i : nat) : string := "S" +:+ pretty i.

(** [sorted(l)] on strings: Python compares strings by code point, which on
    UTF-8 text is the order of the bytes. *)
Definition sorted (l : list string) : list string := merge_sort String.le l.

(** ** Calls on an automaton instance *)

Inductive op : Type :=
  | AddState (state_name : string) (is_final : bool)
  | AddTransition (from_state symbol to_state : string).

(** The states that a sequence of calls declares with [add_state], and the
    states that its [add_transition] calls refer to. *)
Definition declared (ops : list op) : gset string :=
  ⋃ ((λ o, match o with
           | AddState s _ => {[s]}
           | AddTransition _ _ _ => ∅
           end) <$> ops).

Definition referenced (ops : list op) : gset string :=
  ⋃ ((λ o, match o with
           | AddState _ _ => ∅
           | AddTransition f _ t => {[f; t]}
           end) <$> ops).

(** ** The NFA class of NFA_Deserializer.py *)

Module NFA.

Record t : Type := mk {
  start_state : option string;
  states : gset string;
  final_states : gset string;
  (* {state: {symbol: [next_states]}} *)
  transitions : gmap string (gmap string (list string))
}.

(** [NFA(start_state)] *)
Definition init (start : option string) : t :=
  {| start_state := start; states := ∅; final_states := ∅; transitions := ∅ |}.

Definition add_state (self : t) (state_name : string) (is_final : bool) : t :=
  {| start_state := start_state self;
     states := {[state_name]} ∪ states self;
     final_states :=
       if is_final then {[state_name]} ∪ final_states self else final_states self;
     transitions :=
       match transitions self !! state_name with
       | Some _ => transitions self
       | None => <[state_name := ∅]> (transitions self)
       end |}.

Definition add_transition (self : t) (from_state symbol to_state : string) : t :=
  let row := default ∅ (transitions self !! from_state) in
  let targets := default [] (row !! symbol) in
  let targets' :=
    if decide (to_state ∈ targets) then targets else targets ++ [to_state] in
  {| start_state := start_state self;
     states := states self;
     final_states := final_states self;
     transitions := <[from_state := <[symbol := targets']> row]> (transitions self) |}.

(** [nfa.transitions[state][symbol]], the empty list when either key is
    absent. *)
Definition targets (self : t) (state symbol : string) : list string :=
  default [] (transitions self !! state ≫= (.!! symbol)).

Definition apply (self : t) (o : op) : t :=
  match o with
  | AddState s b => add_state self s b
  | AddTransition f c x => add_transition self f c x
  end.

(** A sequence of calls, first to last. *)
Definition run (self : t) (ops : list op) : t := foldl apply self ops.

End NFA.

(** ** The DFA class of DFA_Builder.py *)

Module DFA.

Record t : Type := mk {
  start_state : option string;
  states : gset string;
  final_states : gset string;
  transitions : gmap string (gmap string string)
}.

(** [DFA()] *)
Definition init : t :=
  {| start_state := None; states := ∅; final_states := ∅; transitions := ∅ |}.

Definition add_state (self : t) (state_name : string) (is_final : bool) : t :=
  {| start_state := start_state self;
     states := {[state_name]} ∪ states self;
     final_states :=
       if is_final then {[state_name]} ∪ final_states self else final_states self;
     transitions :=
       match transitions self !! state_name with
       | Some _ => transitions self
       | None => <[state_name := ∅]> (transitions self)
       end |}.

Definition add_transition (self : t) (from_state symbol to_state : string) : t :=
  let row := default ∅ (transitions self !! from_state) in
  {| start_state := start_state self;
     states := states self;
     final_states := final_states self;
     transitions := <[from_state := <[symbol := to_state]> row]> (transitions self) |}.

Definition set_start_state (self : t) (s : string) : t :=
  {| start_state := Some s;
     states := states self;
     final_states := final_states self;
     transitions := transitions self |}.

(** [dfa.transitions.get(state, {}).get(symbol)] *)
Definition delta (self : t) (state symbol : string) : option string :=
  transitions self !! state ≫= (.!! symbol).

Definition apply (self : t) (o : op) : t :=
  match o with
  | AddState s b => add_state self s b
  | AddTransition f c x => add_transition self f c x
  end.

(** A sequence of calls, first to last. *)
Definition run (self : t) (ops : list op) : t := foldl apply self ops.

End DFA.

(** ** The algorithms of DFA_Builder.py *)

(** Every state that occurs as a target in the transition table. *)
Definition nfa_targets (nfa : NFA.t) : gset string :=
  ⋃ ((λ row : gmap string (list string),
        ⋃ ((λ targets : list string, list_to_set targets) <$> (map_to_list row).*2))
     <$> (map_to_list (NFA.transitions nfa)).*2).

(** The state of the main loop of [convert_nfa_to_dfa]. *)
Record conv_state : Type := ConvState {
  cs_dfa : DFA.t;
  cs_states_map : gmap (gset string) string;
  cs_worklist : list (gset string);
  cs_counter : nat;
  cs_processed : gset (gset string)
}.

Section Algorithms.

(** The order in which a Python set is enumerated. *)
Variable iter_set : gset string → list string.

(** *** get_epsilon_closure *)

(** [for next_state in targets: if next_state not in closure: ...], on the
    pair of the closure and the stack.  The head of the list [stack] is
    the top of the stack: what [stack.pop()] returns and where
    [stack.append] writes. *)
Definition visit_targets (targets : list string) (acc : gset string * list string)
  : gset string * list string :=
  foldl (λ acc next_state,
           if decide (next_state ∈ acc.1) then acc
           else ({[next_state]} ∪ acc.1, next_state :: acc.2))
        acc targets.

(** [for symbol, targets in nfa.transitions[current_state].items(): ...] *)
Definition visit_items (items : list (string * list string))
    (acc : gset string * list string) : gset string * list string :=
  foldl (λ acc item, if is_epsilon item.1 then visit_targets item.2 acc else acc)
        acc items.

Fixpoint closure_loop (fuel : nat) (nfa : NFA.t) (stack : list string)
    (closure : gset string) : result (gset string) :=
  match stack with
  | [] => Ok closure
  | current_state :: stack' =>
      match fuel with
      | 0 => OutOfFuel
      | S fuel' =>
          let acc :=
            match NFA.transitions nfa !! current_state with
            | Some row => visit_items (map_to_list row) (closure, stack')
            | None => (closure, stack')
            end in
          closure_loop fuel' nfa acc.2 acc.1
      end
  end.

Definition get_epsilon_closure (nfa : NFA.t) (states_set : gset string)
  : result (gset string) :=
  closure_loop (size (states_set ∪ nfa_targets nfa)) nfa
               (reverse (iter_set states_set)) states_set.

(** *** move *)

Definition move (nfa : NFA.t) (states_set : gset string) (symbol : string)
  : gset string :=
  foldl (λ result_states state,
           match NFA.transitions nfa !! state with
           | Some row =>
               match row !! symbol with
               | Some targets =>
                   foldl (λ result_states target, {[target]} ∪ result_states)
                         result_states targets
               | None => result_states
               end
           | None => result_states
           end)
        ∅ (iter_set states_set).

(** *** convert_nfa_to_dfa *)

(** Step 1: all symbols except epsilon. *)
Definition nfa_alphabet (nfa : NFA.t) : gset string :=
  foldl (λ alphabet item,
           foldl (λ alphabet symbol,
                    if is_alphabet_symbol symbol then {[symbol]} ∪ alphabet
                    else alphabet)
                 alphabet (map_to_list (item.2 : gmap string (list string))).*1)
        ∅ (map_to_list (NFA.transitions nfa)).

(** [any(s in nfa.final_states for s in states_set)] *)
Definition any_final (final_states states_set : gset string) : bool :=
  existsb (λ s, bool_decide (s ∈ final_states)) (iter_set states_set).

(** The body of [for char in sorted(list(alphabet))]. *)
Definition expand (nfa : NFA.t) (current_set : gset string) (current_name : string)
    (st : conv_state) (char : string) : result conv_state :=
  let move_result := move nfa current_set char in
  final_destination_set ← get_epsilon_closure nfa move_result;
  if decide (final_destination_set = ∅) then Ok st
  else
    let destination_frozen := final_destination_set in
    let st1 :=
      match cs_states_map st !! destination_frozen with
      | Some _ => st
      | None =>
          let new_name := state_name (cs_counter st) in
          let is_final := any_final (NFA.final_states nfa) destination_frozen in
          {| cs_dfa := DFA.add_state (cs_dfa st) new_name is_final;
             cs_states_map := <[destination_frozen := new_name]> (cs_states_map st);
             cs_worklist := cs_worklist st ++ [destination_frozen];
             cs_counter := S (cs_counter st);
             cs_processed := cs_processed st |}
      end in
    target_name ← getitem (cs_states_map st1) destination_frozen;
    Ok {| cs_dfa := DFA.add_transition (cs_dfa st1) current_name char target_name;
          cs_states_map := cs_states_map st1;
          cs_worklist := cs_worklist st1;
          cs_counter := cs_counter st1;
          cs_processed := cs_processed st1 |}.

(** [while worklist: ...] *)
Fixpoint convert_loop (fuel : nat) (nfa : NFA.t) (alphabet : gset string)
    (st : conv_state) : result DFA.t :=
  match cs_worklist st with
  | [] => Ok (cs_dfa st)
  | current_set :: worklist' =>
      match fuel with
      | 0 => OutOfFuel
      | S fuel' =>
          current_name ← getitem (cs_states_map st) current_set;
          if decide (current_set ∈ cs_processed st) then
            convert_loop fuel' nfa alphabet
              {| cs_dfa := cs_dfa st;
                 cs_states_map := cs_states_map st;
                 cs_worklist := worklist';
                 cs_counter := cs_counter st;
                 cs_processed := cs_processed st |}
          else
            st' ← for_each (expand nfa current_set current_name)
                           (sorted (iter_set alphabet))
                           {| cs_dfa := cs_dfa st;
                              cs_states_map := cs_states_map st;
                              cs_worklist := worklist';
                              cs_counter := cs_counter st;
                              cs_processed := {[current_set]} ∪ cs_processed st |};
            convert_loop fuel' nfa alphabet st'
      end
  end.

(** [{nfa.start_state}].  A start state [None] is a member of no set and a
    key of no dict of the automaton, so that the set [{None}] behaves in
    the algorithm as the empty set does: its closure adds nothing, no move
    leaves it, it holds no final state, and no destination set is equal
    to it, empty destinations being skipped. *)
Definition start_set (nfa : NFA.t) : gset string :=
  match NFA.start_state nfa with
  | Some s => {[s]}
  | None => ∅
  end.

Definition convert_nfa_to_dfa (nfa : NFA.t) : result DFA.t :=
  let alphabet := nfa_alphabet nfa in
  start_closure ← get_epsilon_closure nfa (start_set nfa);
  let start_frozen := start_closure in
  let is_start_final := any_final (NFA.final_states nfa) start_closure in
  convert_loop (2 ^ size (start_set nfa ∪ nfa_targets nfa))%nat nfa alphabet
    {| cs_dfa := DFA.add_state (DFA.set_start_state DFA.init "S0") "S0" is_start_final;
       cs_states_map := {[start_frozen := "S0"]};
       cs_worklist := [start_frozen];
       cs_counter := 1;
       cs_processed := ∅ |}.

(** *** minimize_dfa *)

(** Step 1: the alphabet. *)
Definition dfa_alphabet (dfa : DFA.t) : gset string :=
  foldl (λ alphabet item,
           foldl (λ alphabet char, {[char]} ∪ alphabet)
                 alphabet (map_to_list (item.2 : gmap string string)).*1)
        ∅ (map_to_list (DFA.transitions dfa)).

(** [for idx, part in enumerate(current_partitions): ...; return -1] *)
Fixpoint index_from (idx : nat) (target_state : string)
    (current_partitions : list (gset string)) : Z :=
  match current_partitions with
  | [] => -1
  | part :: parts =>
      if decide (target_state ∈ part) then Z.of_nat idx
      else index_from (S idx) target_state parts
  end.

Definition get_partition_index (target_state : option string)
    (current_partitions : list (gset string)) : Z :=
  match target_state with
  | None => -1
  | Some t => index_from 0 t current_partitions
  end.

(** [for char in alphabet: ... if first_part != state_part:
    is_matching = False; break] *)
Definition is_matching (dfa : DFA.t) (alphabet : gset string)
    (partitions : list (gset string)) (first state : string) : bool :=
  forallb (λ char,
             bool_decide (get_partition_index (DFA.delta dfa first char) partitions
                          = get_partition_index (DFA.delta dfa state char) partitions))
          (iter_set alphabet).

(** The body of [for group in partitions], on the pair of
    [new_partitions] and [did_split_occur]. *)
Definition refine_group (dfa : DFA.t) (alphabet : gset string)
    (partitions : list (gset string)) (acc : list (gset string) * bool)
    (group : gset string) : result (list (gset string) * bool) :=
  if decide (size group ≤ 1)%nat then Ok (acc.1 ++ [group], acc.2)
  else
    match iter_set group with
    | [] => Raise IndexError
    | first :: others =>
        let groups :=
          foldl (λ (groups : gset string * gset string) state,
                   if is_matching dfa alphabet partitions first state
                   then ({[state]} ∪ groups.1, groups.2)
                   else (groups.1, {[state]} ∪ groups.2))
                ({[first]}, ∅) others in
        if decide (groups.2 = ∅) then Ok (acc.1 ++ [group], acc.2)
        else Ok (acc.1 ++ [groups.1; groups.2], true)
    end.

(** [while did_split_occur: ...] *)
Fixpoint refine_loop (fuel : nat) (dfa : DFA.t) (alphabet : gset string)
    (partitions : list (gset string)) : result (list (gset string)) :=
  match fuel with
  | 0 => OutOfFuel
  | S fuel' =>
      pass ← for_each (refine_group dfa alphabet partitions) partitions ([], false);
      if pass.2 : bool then refine_loop fuel' dfa alphabet pass.1
      else Ok pass.1
  end.

(** [enumerate(l)], counting from [i]. *)
Fixpoint enumerate_from {A : Type} (i : nat) (l : list A) : list (nat * A) :=
  match l with
  | [] => []
  | x :: l' => (i, x) :: enumerate_from (S i) l'
  end.

(** The first loop of step 4: states, final states, the start state and
    [state_name_map]. *)
Definition name_group (dfa : DFA.t) (acc : DFA.t * gmap string string)
    (item : nat * gset string) : DFA.t * gmap string string :=
  let new_state_name := state_name item.1 in
  let group := item.2 in
  let is_final := any_final (DFA.final_states dfa) group in
  let min_dfa := DFA.add_state acc.1 new_state_name is_final in
  let min_dfa :=
    match DFA.start_state dfa with
    | Some s =>
        if decide (s ∈ group) then DFA.set_start_state min_dfa new_state_name
        else min_dfa
    | None => min_dfa
    end in
  (min_dfa,
   foldl (λ (state_name_map : gmap string string) state,
            <[state := new_state_name]> state_name_map)
         acc.2 (iter_set group)).

(** The second loop of step 4: the transitions of one representative of
    each group. *)
Definition link_group (dfa : DFA.t) (state_name_map : gmap string string)
    (min_dfa : DFA.t) (group : gset string) : result DFA.t :=
  match iter_set group with
  | [] => Raise StopIteration
  | rep :: _ =>
      source_name ← getitem state_name_map rep;
      match DFA.transitions dfa !! rep with
      | Some row =>
          Ok (foldl (λ min_dfa (item : string * string),
                       match state_name_map !! item.2 with
                       | Some target_name =>
                           DFA.add_transition min_dfa source_name item.1 target_name
                       | None => min_dfa
                       end)
                    min_dfa (map_to_list row))
      | None => Ok min_dfa
      end
  end.

(** Step 2: the initial partition. *)
Definition initial_partition (dfa : DFA.t) : list (gset string) :=
  let final_states := DFA.final_states dfa in
  let non_final_states := DFA.states dfa ∖ final_states in
  (if decide (non_final_states = ∅) then [] else [non_final_states])
  ++ (if decide (final_states = ∅) then [] else [final_states]).

Definition rebuild (dfa : DFA.t) (partitions : list (gset string)) : result DFA.t :=
  let named := foldl (name_group dfa) (DFA.init, ∅) (enumerate_from 0 partitions) in
  for_each (link_group dfa named.2) partitions named.1.

Definition minimize_dfa (dfa : DFA.t) : result DFA.t :=
  let alphabet := dfa_alphabet dfa in
  partitions ← refine_loop (S (size (DFA.states dfa ∪ DFA.final_states dfa)))
                           dfa alphabet (initial_partition dfa);
  rebuild dfa partitions.

End Algorithms.

(** ** The document model

    The parsed JSON document that [json.load] returns and [json.dumps]
    prints: a dict from keys to values.  A value of the top-level dict is a
    state identifier (a JSON string, or [null]) or a state object; a value
    of a state object is a boolean, a state identifier or a list of state
    identifiers.  The two functions are taken to be inverse to each other on
    these documents, and a file to hold a document. *)

Inductive field : Type :=
  | Flag (b : bool)
  | Target (t : string)
  | Targets (ts : list string).

Inductive entry : Type :=
  | StateId (s : option string)
  | StateObject (state_data : gmap string field).

(** The truth value of [if is_final:] for a value of a state object. *)
Definition truthy (f : field) : bool :=
  match f with
  | Flag b => b
  | Target t => bool_decide (t ≠ "")
  | Targets ts => bool_decide (ts ≠ [])
  end.

(** What the pipeline prints, shows and writes. [PrintError e] is
    [print(f"Error: {e}")]; [PrintJson d] prints the text of [d];
    [Render f] is the image that graphviz renders under the name [f]. *)
Inductive event : Type :=
  | Print (msg : string)
  | PrintError (e : exn)
  | PrintJson (d : gmap string entry)
  | Display
  | Render (filename : string)
  | WriteFile (path : string) (d : gmap string entry).

Section Pipeline.

Variable iter_set : gset string → list string.

(** *** DFA.to_json *)

Definition state_to_json (self : DFA.t) (state : string) : gmap string field :=
  let state_data : gmap string field :=
    {[ "isTerminatingState" := Flag (bool_decide (state ∈ DFA.final_states self)) ]} in
  match DFA.transitions self !! state with
  | Some row =>
      foldl (λ (state_data : gmap string field) (item : string * string),
               <[item.1 := Target item.2]> state_data)
            state_data (map_to_list row)
  | None => state_data
  end.

Definition to_json (self : DFA.t) : gmap string entry :=
  let output : gmap string entry :=
    {[ "startingState" := StateId (DFA.start_state self) ]} in
  let sorted_states := sorted (iter_set (DFA.states self)) in
  foldl (λ (output : gmap string entry) state,
           <[state := StateObject (state_to_json self state)]> output)
        output sorted_states.

(** *** deserialize_nfa_json *)

(** Step 4 for one key of a state object.  A boolean in the place of a
    target would become a state that is not a string: such a document is
    outside the embedding. *)
Definition load_transition (state_name : string) (nfa : NFA.t)
    (item : string * field) : result NFA.t :=
  if decide (item.1 = "isTerminatingState") then Ok nfa
  else
    match item.2 with
    | Targets ts =>
        Ok (foldl (λ nfa t_state, NFA.add_transition nfa state_name item.1 t_state)
                  nfa ts)
    | Target t => Ok (NFA.add_transition nfa state_name item.1 t)
    | Flag _ => Unsupported
    end.

(** The body of [for key, value in data.items()].  A value that is not a
    dict has no [get]. *)
Definition load_state (nfa : NFA.t) (item : string * entry) : result NFA.t :=
  if decide (item.1 = "startingState") then Ok nfa
  else
    match item.2 with
    | StateId _ => Raise AttributeError
    | StateObject state_data =>
        let is_final :=
          match state_data !! "isTerminatingState" with
          | Some v => truthy v
          | None => false
          end in
        for_each (load_transition item.1) (map_to_list state_data)
                 (NFA.add_state nfa item.1 is_final)
    end.

(** [fs] maps the paths of the files that exist to the documents they
    hold.  A state object as the value of "startingState" would become
    a start state that is not a string: outside the embedding. *)
Definition deserialize_nfa_json (fs : gmap string (gmap string entry))
    (file_path : string) : result NFA.t :=
  match fs !! file_path with
  | None => Raise FileNotFoundError
  | Some data =>
      match data !! "startingState" with
      | None => Raise ValueError
      | Some (StateObject _) => Unsupported
      | Some (StateId start_state) =>
          for_each load_state (map_to_list data) (NFA.init start_state)
      end
  end.

(** *** BuildDFA

    The trace of what the call prints, renders and writes.  Rendering is
    the work of graphviz and is taken to succeed.  An exception raised
    inside the [try] ends the trace with the printed error. *)
Definition catch {A : Type} (trace : list event) (r : result A)
    (k : A → result (list event)) : result (list event) :=
  match r with
  | Ok a => k a
  | Raise e => Ok (trace ++ [PrintError e])
  | OutOfFuel => OutOfFuel
  | Unsupported => Unsupported
  end.

Definition BuildDFA (fs : gmap string (gmap string entry))
    (input_nfa_json output_dfa_json output_min_dfa_json : string)
  : result (list event) :=
  catch [] (deserialize_nfa_json fs input_nfa_json) (λ my_nfa,
    let trace :=
      [ Print ("Loaded NFA with " +:+ pretty (size (NFA.states my_nfa)) +:+ " states.");
        Render "nfa_visualization";
        Print "Graph generated: nfa_visualization.png";
        Display;
        Print "3. Converting NFA to DFA..." ] in
    catch trace (convert_nfa_to_dfa iter_set my_nfa) (λ my_dfa,
      let trace := trace ++
        [ Print ("   -> Generated DFA with " +:+ pretty (size (DFA.states my_dfa))
                 +:+ " states.");
          Print "4. Visualizing DFA...";
          Render "dfa_graph";
          Print "   -> Image saved to: dfa_graph.png";
          Print "5. DFA JSON Output:";
          PrintJson (to_json my_dfa);
          WriteFile output_dfa_json (to_json my_dfa);
          Print "   -> Saved to json file" ] in
      catch trace (minimize_dfa iter_set my_dfa) (λ min_dfa,
        Ok (trace ++
          [ Print ("Minimized DFA has " +:+ pretty (size (DFA.states min_dfa))
                   +:+ " states.");
            Print "4. Visualizing Min-DFA...";
            Render "min_dfa_graph";
            Print "   -> Image saved to: min_dfa_graph.png";
            Print "5. MIN_DFA JSON Output:";
            PrintJson (to_json min_dfa);
            WriteFile output_min_dfa_json (to_json min_dfa);
            Print "  -> Saved to json file" ])))).

End Pipeline.

(** ** Notions used in the statements *)

(** Every source and every target of the transition table is one of the
    states of [X]. *)
Definition nfa_within (X : gset string) (nfa : NFA.t) : Prop :=
  map_Forall (λ s (row : gmap string (list string)),
                s ∈ X ∧ map_Forall (λ _ ts, Forall (.∈ X) ts) row)
             (NFA.transitions nfa).

Definition dfa_within (X : gset string) (dfa : DFA.t) : Prop :=
  map_Forall (λ s (row : gmap string string),
                s ∈ X ∧ map_Forall (λ _ t, t ∈ X) row)
             (DFA.transitions dfa).

(** [q] is a target of an epsilon transition of [p]: a transition whose
    symbol passes the test of [get_epsilon_closure]. *)
Definition eps_edge (nfa : NFA.t) (p q : string) : Prop :=
  ∃ row symbol targets,
    NFA.transitions nfa !! p = Some row ∧ row !! symbol = Some targets
    ∧ is_epsilon symbol = true ∧ q ∈ targets.

(** [R] is closed under epsilon transitions. *)
Definition eps_closed (nfa : NFA.t) (R : gset string) : Prop :=
  ∀ p q, p ∈ R → eps_edge nfa p q → q ∈ R.

(** The targets that the epsilon items of a row contribute. *)
Definition eps_targets_of (items : list (string * list string)) (x : string) : Prop :=
  ∃ item, item ∈ items ∧ is_epsilon item.1 = true ∧ x ∈ item.2.

(** *** Acceptance

    A run of the NFA from [p] to [r] that reads the word [w]: epsilon
    transitions read nothing, any other transition reads its symbol. *)
Inductive nfa_path (nfa : NFA.t) : string → list string → string → Prop :=
  | nfa_path_done q : nfa_path nfa q [] q
  | nfa_path_eps p q w r :
      eps_edge nfa p q → nfa_path nfa q w r → nfa_path nfa p w r
  | nfa_path_symbol p c q w r :
      q ∈ NFA.targets nfa p c → nfa_path nfa q w r → nfa_path nfa p (c :: w) r.

Definition nfa_accepts (nfa : NFA.t) (w : list string) : Prop :=
  ∃ q0 qf, NFA.start_state nfa = Some q0 ∧ nfa_path nfa q0 w qf
           ∧ qf ∈ NFA.final_states nfa.

(** The DFA follows its transition table; a missing transition rejects. *)
Fixpoint dfa_run (dfa : DFA.t) (q : string) (w : list string) : option string :=
  match w with
  | [] => Some q
  | c :: w' => q' ← DFA.delta dfa q c; dfa_run dfa q' w'
  end.

Definition dfa_accepts_from (dfa : DFA.t) (q : string) (w : list string) : Prop :=
  ∃ qf, dfa_run dfa q w = Some qf ∧ qf ∈ DFA.final_states dfa.

Definition dfa_accepts (dfa : DFA.t) (w : list string) : Prop :=
  ∃ q0, DFA.start_state dfa = Some q0 ∧ dfa_accepts_from dfa q0 w.

(** *** Auxiliary functions of the subset construction proof *)

(** The closure as a total function. *)
Definition ecl (iter_set : gset string → list string) (nfa : NFA.t)
    (X : gset string) : gset string :=
  match get_epsilon_closure iter_set nfa X with
  | Ok R => R
  | _ => ∅
  end.

(** The set of states of the NFA after reading [w] from the set [X]. *)
Fixpoint run_set (iter_set : gset string → list string) (nfa : NFA.t)
    (X : gset string) (w : list string) : gset string :=
  match w with
  | [] => X
  | c :: w' => run_set iter_set nfa (ecl iter_set nfa (move iter_set nfa X c)) w'
  end.

(** All the subsets of the set of the members of a list. *)
Fixpoint subsets (l : list string) : list (gset string) :=
  match l with
  | [] => [∅]
  | x :: l' => subsets l' ++ (({[x]} ∪.) <$> subsets l')
  end.

(** The invariant of the loops of [convert_nfa_to_dfa], where [U] bounds
    the states of the NFA, [cur] is the set that is being expanded and
    [rest] are the symbols that are still to be tried for it. *)
Record conv_inv (iter_set : gset string → list string) (nfa : NFA.t)
    (U : gset string) (cur : gset string) (rest : list string)
    (st : conv_state) : Prop := ConvInv {
  ci_start : DFA.start_state (cs_dfa st) = Some "S0";
  ci_start_map :
    cs_states_map st !! ecl iter_set nfa (start_set nfa) = Some "S0";
  ci_names : ∀ X n, cs_states_map st !! X = Some n →
    ∃ i, (i < cs_counter st)%nat ∧ n = state_name i;
  ci_inj : ∀ X Y n,
    cs_states_map st !! X = Some n → cs_states_map st !! Y = Some n → X = Y;
  ci_within : ∀ X n, cs_states_map st !! X = Some n → X ⊆ U;
  ci_final : ∀ X n, cs_states_map st !! X = Some n →
    (n ∈ DFA.final_states (cs_dfa st) ↔ ∃ s, s ∈ X ∧ s ∈ NFA.final_states nfa);
  ci_final_names : ∀ n, n ∈ DFA.final_states (cs_dfa st) →
    ∃ i, (i < cs_counter st)%nat ∧ n = state_name i;
  ci_sound : ∀ n c m, DFA.delta (cs_dfa st) n c = Some m →
    ∃ X, cs_states_map st !! X = Some n ∧ c ∈ nfa_alphabet nfa
         ∧ ecl iter_set nfa (move iter_set nfa X c) ≠ ∅
         ∧ cs_states_map st !! ecl iter_set nfa (move iter_set nfa X c) = Some m;
  ci_complete : ∀ X n c, cs_states_map st !! X = Some n →
    X ∈ cs_processed st → (X = cur → c ∉ rest) → c ∈ nfa_alphabet nfa →
    ecl iter_set nfa (move iter_set nfa X c) ≠ ∅ →
    is_Some (DFA.delta (cs_dfa st) n c);
  ci_covered : ∀ X, is_Some (cs_states_map st !! X) →
    X ∈ cs_processed st ∨ X ∈ cs_worklist st;
  ci_worklist : ∀ X, X ∈ cs_worklist st → is_Some (cs_states_map st !! X);
  ci_processed : ∀ X, X ∈ cs_processed st → is_Some (cs_states_map st !! X);
  ci_states : ∀ n, n ∈ DFA.states (cs_dfa st)
                   ↔ ∃ X, cs_states_map st !! X = Some n;
  ci_final_states : DFA.final_states (cs_dfa st) ⊆ DFA.states (cs_dfa st);
  ci_rows : ∀ n row, DFA.transitions (cs_dfa st) !! n = Some row →
    n ∈ DFA.states (cs_dfa st)
}.

(** *** Auxiliary notions of the minimization proof *)

(** The test of the refinement loop: on every symbol of the alphabet the
    targets of [x] and [y] have the same partition index. *)
Definition matches (dfa : DFA.t) (alphabet : gset string)
    (partitions : list (gset string)) (x y : string) : Prop :=
  set_Forall (λ c, get_partition_index (DFA.delta dfa x c) partitions
                   = get_partition_index (DFA.delta dfa y c) partitions)
             alphabet.

Fixpoint pairwise_disjoint (P : list (gset string)) : Prop :=
  match P with
  | [] => True
  | G :: P' => (∀ H, H ∈ P' → G ## H) ∧ pairwise_disjoint P'
  end.

(** The list [P] of groups is a partition of the set [U]. *)
Definition is_partition (U : gset string) (P : list (gset string)) : Prop :=
  Forall (λ G, G ≠ ∅) P ∧ ⋃ P = U ∧ pairwise_disjoint P.

(** One pass of the refinement loop over the groups [Gs], with lookups in
    the partition [P]: a group whose members all match is kept, any other
    group is split by one of its members [first] into the members that
    match [first] and those that do not.  The flag tells whether some group
    was split. *)
Inductive refined (dfa : DFA.t) (alphabet : gset string) (P : list (gset string))
  : list (gset string) → list (gset string) → bool → Prop :=
  | refined_nil : refined dfa alphabet P [] [] false
  | refined_keep G Gs R b :
      (∀ x y, x ∈ G → y ∈ G → matches dfa alphabet P x y) →
      refined dfa alphabet P Gs R b →
      refined dfa alphabet P (G :: Gs) (G :: R) b
  | refined_split G first Gs R b :
      first ∈ G →
      filter (λ x, ¬ matches dfa alphabet P first x) G ≠ ∅ →
      refined dfa alphabet P Gs R b →
      refined dfa alphabet P (G :: Gs)
        (filter (λ x, matches dfa alphabet P first x) G
         :: filter (λ x, ¬ matches dfa alphabet P first x) G :: R) true.

(** The targets of two states on one symbol agree up to [Rel].  As in
    [get_partition_index], a target that is in no group, that is, neither
    a state nor a final state of the DFA, counts like a missing
    transition. *)
Definition same_target (U : gset string) (Rel : string → string → Prop)
    (o1 o2 : option string) : Prop :=
  match o1, o2 with
  | Some t, Some u => t = u ∨ Rel t u ∨ ((t ∉ U) ∧ (u ∉ U))
  | Some t, None => t ∉ U
  | None, Some u => u ∉ U
  | None, None => True
  end.

(** [Rel] relates only states of the DFA that agree on finality and whose
    targets on every symbol agree up to [Rel]. *)
Definition dfa_bisimulation (dfa : DFA.t) (Rel : string → string → Prop) : Prop :=
  let U := DFA.states dfa ∪ DFA.final_states dfa in
  ∀ x y, Rel x y →
    x ∈ U ∧ y ∈ U
    ∧ (x ∈ DFA.final_states dfa ↔ y ∈ DFA.final_states dfa)
    ∧ ∀ c, same_target U Rel (DFA.delta dfa x c) (DFA.delta dfa y c).

(** The partition [P] keeps the states that [Rel] relates in one group. *)
Definition keeps (Rel : string → string → Prop) (P : list (gset string)) : Prop :=
  ∀ x y, Rel x y → ∃ G, G ∈ P ∧ x ∈ G ∧ y ∈ G.

(** The start state is declared, final states are states, and every source
    and every target of a transition is a state. *)
Definition dfa_well_formed (dfa : DFA.t) : Prop :=
  (∀ s, DFA.start_state dfa = Some s → s ∈ DFA.states dfa)
  ∧ DFA.final_states dfa ⊆ DFA.states dfa
  ∧ dfa_within (DFA.states dfa) dfa.

(** [f] renames the states of [A] to the states of [B], one to one, and
    carries the start state, finality and every transition of [A] to those
    of [B]. *)
Definition dfa_isomorphism (f : string → string) (A B : DFA.t) : Prop :=
  (∀ x y, x ∈ DFA.states A → y ∈ DFA.states A → f x = f y → x = y)
  ∧ (∀ n, n ∈ DFA.states B ↔ ∃ x, x ∈ DFA.states A ∧ n = f x)
  ∧ (∀ x, x ∈ DFA.states A →
          (f x ∈ DFA.final_states B ↔ x ∈ DFA.final_states A))
  ∧ DFA.start_state B = f <$> DFA.start_state A
  ∧ (∀ x c, x ∈ DFA.states A → DFA.delta B (f x) c = f <$> DFA.delta A x c).

(** The name that a second minimization gives to the group that a first
    one named [n]: the second name of some state whose first name is [n]. *)
Definition rename (U : gset string) (nm1 nm2 : gmap string string)
    (n : string) : string :=
  default "" (x ← head (filter (λ x, nm1 !! x = Some n) (elements U));
              nm2 !! x).

(** What [minimize_dfa] returns, in terms of the stable partition [P] of
    the states and final states of [dfa] that the refinement reaches and of
    the [state_name_map] [nm] of the rebuilding step. *)
Record min_result (dfa : DFA.t) (P : list (gset string))
    (nm : gmap string string) (min_dfa : DFA.t) : Prop := MinResult {
  mr_partition : is_partition (DFA.states dfa ∪ DFA.final_states dfa) P;
  mr_final_groups : ∀ G, G ∈ P →
    G ⊆ DFA.final_states dfa ∨ G ## DFA.final_states dfa;
  mr_stable : ∀ G x y, G ∈ P → x ∈ G → y ∈ G →
    matches dfa (dfa_alphabet dfa) P x y;
  mr_coarsest : ∀ Rel, dfa_bisimulation dfa Rel → keeps Rel P;
  mr_states : ∀ n, n ∈ DFA.states min_dfa
    ↔ ∃ j, (j < length P)%nat ∧ n = state_name j;
  mr_final : ∀ n, n ∈ DFA.final_states min_dfa
    ↔ ∃ j G s, P !! j = Some G ∧ n = state_name j
               ∧ s ∈ G ∧ s ∈ DFA.final_states dfa;
  mr_start : ∀ j G s, P !! j = Some G → DFA.start_state dfa = Some s → s ∈ G →
    DFA.start_state min_dfa = Some (state_name j);
  mr_no_start :
    (∀ s, DFA.start_state dfa = Some s →
          s ∉ DFA.states dfa ∪ DFA.final_states dfa) →
    DFA.start_state min_dfa = None;
  mr_delta : ∀ j G, P !! j = Some G →
    ∃ rep, rep ∈ G ∧ ∀ c,
      DFA.delta min_dfa (state_name j) c = DFA.delta dfa rep c ≫= (nm !!.);
  mr_delta_other : ∀ n c, (∀ j, (j < length P)%nat → n ≠ state_name j) →
    DFA.delta min_dfa n c = None;
  mr_names : ∀ j G x, P !! j = Some G → x ∈ G → nm !! x = Some (state_name j);
  mr_unnamed : ∀ x, x ∉ DFA.states dfa ∪ DFA.final_states dfa → nm !! x = None;
  mr_rows : ∀ n, n ∈ dom (DFA.transitions min_dfa) → n ∈ DFA.states min_dfa
}.

(** * Properties *)

(** ** The automaton model *)

Lemma NFA_run_snoc (nfa : NFA.t) ops o :
  NFA.run nfa (ops ++ [o]) = NFA.apply (NFA.run nfa ops) o.
Proof. unfold NFA.run. by rewrite foldl_app. Qed.

Lemma DFA_run_snoc (dfa : DFA.t) ops o :
  DFA.run dfa (ops ++ [o]) = DFA.apply (DFA.run dfa ops) o.
Proof. unfold DFA.run. by rewrite foldl_app. Qed.

Lemma NFA_apply_final_mono (nfa : NFA.t) o :
  NFA.final_states nfa ⊆ NFA.final_states (NFA.apply nfa o).
Proof. destruct o as [s [|]|f c x]; simpl; set_solver. Qed.

Lemma DFA_apply_final_mono (dfa : DFA.t) o :
  DFA.final_states dfa ⊆ DFA.final_states (DFA.apply dfa o).
Proof. destruct o as [s [|]|f c x]; simpl; set_solver. Qed.

Lemma NFA_run_final_mono (nfa : NFA.t) ops :
  NFA.final_states nfa ⊆ NFA.final_states (NFA.run nfa ops).
Proof.
  induction ops as [|o ops IH] using rev_ind; [done|].
  rewrite NFA_run_snoc. etrans; [exact IH|apply NFA_apply_final_mono].
Qed.

Lemma DFA_run_final_mono (dfa : DFA.t) ops :
  DFA.final_states dfa ⊆ DFA.final_states (DFA.run dfa ops).
Proof.
  induction ops as [|o ops IH] using rev_ind; [done|].
  rewrite DFA_run_snoc. etrans; [exact IH|apply DFA_apply_final_mono].
Qed.

Lemma NFA_add_state_targets (nfa : NFA.t) name b s c :
  NFA.targets (NFA.add_state nfa name b) s c = NFA.targets nfa s c.
Proof.
  unfold NFA.targets; simpl.
  destruct (NFA.transitions nfa !! name) eqn:E; [done|].
  destruct (decide (name = s)) as [->|Hne].
  - by rewrite lookup_insert_eq, E.
  - by rewrite lookup_insert_ne.
Qed.

Lemma DFA_add_state_delta (dfa : DFA.t) name b s c :
  DFA.delta (DFA.add_state dfa name b) s c = DFA.delta dfa s c.
Proof.
  unfold DFA.delta; simpl.
  destruct (DFA.transitions dfa !! name) eqn:E; [done|].
  destruct (decide (name = s)) as [->|Hne].
  - by rewrite lookup_insert_eq, E.
  - by rewrite lookup_insert_ne.
Qed.

(** C10. Finality is sticky, for the NFA and for the DFA model: a state
    registered with [is_final=True] is final after any later sequence of
    calls (among them [add_state] for the same name with [is_final=False]);
    and [add_state] removes no state from [states], no state from
    [final_states], and leaves every recorded row of the transition table
    as it was. *)
Theorem add_state_finality_sticky :
  (∀ (nfa : NFA.t) name ops,
      name ∈ NFA.final_states (NFA.run (NFA.add_state nfa name true) ops)
      ∧ name ∈ NFA.final_states
                 (NFA.add_state (NFA.run (NFA.add_state nfa name true) ops) name false))
  ∧ (∀ (dfa : DFA.t) name ops,
      name ∈ DFA.final_states (DFA.run (DFA.add_state dfa name true) ops)
      ∧ name ∈ DFA.final_states
                 (DFA.add_state (DFA.run (DFA.add_state dfa name true) ops) name false))
  ∧ (∀ (nfa : NFA.t) name b,
      NFA.states nfa ⊆ NFA.states (NFA.add_state nfa name b)
      ∧ NFA.final_states nfa ⊆ NFA.final_states (NFA.add_state nfa name b)
      ∧ NFA.transitions nfa ⊆ NFA.transitions (NFA.add_state nfa name b)
      ∧ ∀ s c, NFA.targets (NFA.add_state nfa name b) s c = NFA.targets nfa s c)
  ∧ (∀ (dfa : DFA.t) name b,
      DFA.states dfa ⊆ DFA.states (DFA.add_state dfa name b)
      ∧ DFA.final_states dfa ⊆ DFA.final_states (DFA.add_state dfa name b)
      ∧ DFA.transitions dfa ⊆ DFA.transitions (DFA.add_state dfa name b)
      ∧ ∀ s c, DFA.delta (DFA.add_state dfa name b) s c = DFA.delta dfa s c).
Proof.
  split_and!.
  - intros nfa name ops.
    assert (name ∈ NFA.final_states (NFA.run (NFA.add_state nfa name true) ops)) as H.
    { apply NFA_run_final_mono. simpl. set_solver. }
    split; [exact H|]. simpl. exact H.
  - intros dfa name ops.
    assert (name ∈ DFA.final_states (DFA.run (DFA.add_state dfa name true) ops)) as H.
    { apply DFA_run_final_mono. simpl. set_solver. }
    split; [exact H|]. simpl. exact H.
  - intros nfa name b. split_and!.
    + simpl. set_solver.
    + apply (NFA_apply_final_mono nfa (AddState name b)).
    + simpl. destruct (NFA.transitions nfa !! name) eqn:E; [done|].
      by apply insert_subseteq.
    + apply NFA_add_state_targets.
  - intros dfa name b. split_and!.
    + simpl. set_solver.
    + apply (DFA_apply_final_mono dfa (AddState name b)).
    + simpl. destruct (DFA.transitions dfa !! name) eqn:E; [done|].
      by apply insert_subseteq.
    + apply DFA_add_state_delta.
Qed.

Lemma declared_snoc ops o :
  declared (ops ++ [o]) = declared ops ∪ declared [o].
Proof.
  unfold declared. rewrite fmap_app, union_list_app_L. done.
Qed.

Lemma referenced_snoc ops o :
  referenced (ops ++ [o]) = referenced ops ∪ referenced [o].
Proof.
  unfold referenced. rewrite fmap_app, union_list_app_L. done.
Qed.

Lemma NFA_run_states (nfa : NFA.t) ops :
  NFA.states (NFA.run nfa ops) = NFA.states nfa ∪ declared ops.
Proof.
  induction ops as [|o ops IH] using rev_ind.
  - unfold declared; simpl. set_solver.
  - rewrite NFA_run_snoc, declared_snoc.
    destruct o as [s b|f c x]; unfold declared; simpl; rewrite IH; set_solver.
Qed.

Lemma DFA_run_states (dfa : DFA.t) ops :
  DFA.states (DFA.run dfa ops) = DFA.states dfa ∪ declared ops.
Proof.
  induction ops as [|o ops IH] using rev_ind.
  - unfold declared; simpl. set_solver.
  - rewrite DFA_run_snoc, declared_snoc.
    destruct o as [s b|f c x]; unfold declared; simpl; rewrite IH; set_solver.
Qed.

Lemma NFA_apply_within X (nfa : NFA.t) o :
  declared [o] ∪ referenced [o] ⊆ X →
  nfa_within X nfa → nfa_within X (NFA.apply nfa o).
Proof.
  intros HX Hin. unfold nfa_within in *.
  destruct o as [s b|f c x]; simpl.
  - destruct (NFA.transitions nfa !! s) eqn:E; [done|].
    apply map_Forall_insert_2; [|done].
    split; [|apply map_Forall_empty].
    apply HX. unfold declared; simpl. set_solver.
  - assert (f ∈ X ∧ x ∈ X) as [Hf Hx].
    { split; apply HX; unfold referenced; simpl; set_solver. }
    apply map_Forall_insert_2; [|done].
    split; [done|].
    assert (map_Forall (λ _ ts, Forall (.∈ X) ts)
              (default ∅ (NFA.transitions nfa !! f))) as Hrow.
    { destruct (NFA.transitions nfa !! f) as [row|] eqn:E; simpl.
      - by destruct (Hin _ _ E).
      - apply map_Forall_empty. }
    apply map_Forall_insert_2; [|done].
    assert (Forall (.∈ X) (default [] (default ∅ (NFA.transitions nfa !! f) !! c)))
      as Hts.
    { destruct (default ∅ (NFA.transitions nfa !! f) !! c) as [ts|] eqn:E; simpl.
      - exact (Hrow _ _ E).
      - constructor. }
    case_decide; [done|].
    apply Forall_app. split; [done|]. by repeat constructor.
Qed.

Lemma DFA_apply_within X (dfa : DFA.t) o :
  declared [o] ∪ referenced [o] ⊆ X →
  dfa_within X dfa → dfa_within X (DFA.apply dfa o).
Proof.
  intros HX Hin. unfold dfa_within in *.
  destruct o as [s b|f c x]; simpl.
  - destruct (DFA.transitions dfa !! s) eqn:E; [done|].
    apply map_Forall_insert_2; [|done].
    split; [|apply map_Forall_empty].
    apply HX. unfold declared; simpl. set_solver.
  - assert (f ∈ X ∧ x ∈ X) as [Hf Hx].
    { split; apply HX; unfold referenced; simpl; set_solver. }
    apply map_Forall_insert_2; [|done].
    split; [done|].
    apply map_Forall_insert_2; [done|].
    destruct (DFA.transitions dfa !! f) as [row|] eqn:E; simpl.
    + by destruct (Hin _ _ E).
    + apply map_Forall_empty.
Qed.

Lemma NFA_run_within X (nfa : NFA.t) ops :
  declared ops ∪ referenced ops ⊆ X →
  nfa_within X nfa → nfa_within X (NFA.run nfa ops).
Proof.
  induction ops as [|o ops IH] using rev_ind; [done|].
  rewrite declared_snoc, referenced_snoc, NFA_run_snoc. intros HX Hin.
  apply NFA_apply_within; [set_solver|]. apply IH; [set_solver|done].
Qed.

Lemma DFA_run_within X (dfa : DFA.t) ops :
  declared ops ∪ referenced ops ⊆ X →
  dfa_within X dfa → dfa_within X (DFA.run dfa ops).
Proof.
  induction ops as [|o ops IH] using rev_ind; [done|].
  rewrite declared_snoc, referenced_snoc, DFA_run_snoc. intros HX Hin.
  apply DFA_apply_within; [set_solver|]. apply IH; [set_solver|done].
Qed.

(** C5. For every sequence of [add_state] / [add_transition] calls on a
    fresh NFA or DFA in which every state that a transition refers to is
    declared by some [add_state] call of the sequence, before or after the
    transition, every source and every target of the resulting transition
    table is a member of [states]. *)
Theorem transitions_refer_to_declared_states (start : option string) (ops : list op) :
  referenced ops ⊆ declared ops →
  nfa_within (NFA.states (NFA.run (NFA.init start) ops)) (NFA.run (NFA.init start) ops)
  ∧ dfa_within (DFA.states (DFA.run DFA.init ops)) (DFA.run DFA.init ops).
Proof.
  intros Href. rewrite NFA_run_states, DFA_run_states. simpl. split.
  - apply NFA_run_within; [set_solver|]. apply map_Forall_empty.
  - apply DFA_run_within; [set_solver|]. apply map_Forall_empty.
Qed.

Lemma transitions_refer_to_declared_states_witness :
  let ops := [AddTransition "A" "x" "B"; AddState "A" false;
              AddTransition "B" "" "A"; AddState "B" true] in
  referenced ops ⊆ declared ops
  ∧ nfa_within (NFA.states (NFA.run (NFA.init (Some "A")) ops))
               (NFA.run (NFA.init (Some "A")) ops)
  ∧ dfa_within (DFA.states (DFA.run DFA.init ops)) (DFA.run DFA.init ops).
Proof.
  intros ops.
  assert (referenced ops ⊆ declared ops) as H.
  { refine (bool_decide_unpack _ _). vm_compute. exact I. }
  split; [exact H|].
  exact (transitions_refer_to_declared_states (Some "A") ops H).
Defined.

(** ** Epsilon closure *)

Lemma size_difference_cons (U c : gset string) t :
  t ∈ U → t ∉ c → S (size (U ∖ ({[t]} ∪ c))) = size (U ∖ c).
Proof.
  intros HU Hc.
  assert (U ∖ c = {[t]} ∪ U ∖ ({[t]} ∪ c)) as ->.
  { apply set_eq. intros x. rewrite !elem_of_union, !elem_of_difference,
      elem_of_union, elem_of_singleton.
    destruct (decide (x = t)) as [->|]; naive_solver. }
  rewrite (size_union {[t]} (U ∖ ({[t]} ∪ c))) by set_solver.
  by rewrite size_singleton.
Qed.

Lemma nfa_targets_spec (nfa : NFA.t) p row symbol targets x :
  NFA.transitions nfa !! p = Some row → row !! symbol = Some targets →
  x ∈ targets → x ∈ nfa_targets nfa.
Proof.
  intros Hp Hrow Hx. unfold nfa_targets.
  apply elem_of_union_list. eexists. split.
  - apply list_elem_of_fmap. exists row. split; [reflexivity|].
    apply list_elem_of_fmap. exists (p, row). split; [done|].
    by apply elem_of_map_to_list.
  - apply elem_of_union_list. exists (list_to_set targets). split.
    + apply list_elem_of_fmap. exists targets. split; [done|].
      apply list_elem_of_fmap. exists (symbol, targets). split; [done|].
      by apply elem_of_map_to_list.
    + by apply elem_of_list_to_set.
Qed.

Section Closure.

Variable iter_set : gset string → list string.
Hypothesis iter_set_perm : ∀ X, iter_set X ≡ₚ elements X.

Lemma elem_of_iter_set X x : x ∈ iter_set X ↔ x ∈ X.
Proof. rewrite (iter_set_perm X). apply elem_of_elements. Qed.

Lemma length_iter_set X : length (iter_set X) = size X.
Proof. by rewrite (iter_set_perm X). Qed.

Lemma NoDup_iter_set X : NoDup (iter_set X).
Proof. rewrite (iter_set_perm X). apply NoDup_elements. Qed.

Lemma visit_targets_spec targets (closure : gset string) (stack : list string) :
  (visit_targets targets (closure, stack)).1 = closure ∪ list_to_set targets
  ∧ (∀ x, x ∈ (visit_targets targets (closure, stack)).2
          ↔ x ∈ stack ∨ (x ∈ targets ∧ x ∉ closure))
  ∧ (∀ U : gset string, closure ⊆ U → list_to_set targets ⊆ U →
       length (visit_targets targets (closure, stack)).2
       + size (U ∖ (visit_targets targets (closure, stack)).1)
       ≤ length stack + size (U ∖ closure))%nat.
Proof.
  revert closure stack.
  induction targets as [|t targets IH]; intros closure stack.
  - simpl. split_and!; [set_solver| |intros; lia].
    intros x. rewrite elem_of_nil. naive_solver.
  - unfold visit_targets in *. simpl. case_decide as Ht.
    + destruct (IH closure stack) as (IH1 & IH2 & IH3).
      split_and!.
      * rewrite IH1. set_solver.
      * intros x. rewrite IH2, elem_of_cons. naive_solver.
      * intros U HcU HtU. apply IH3; set_solver.
    + destruct (IH ({[t]} ∪ closure) (t :: stack)) as (IH1 & IH2 & IH3).
      split_and!.
      * rewrite IH1. set_solver.
      * intros x. rewrite IH2, !elem_of_cons, elem_of_union, elem_of_singleton.
        destruct (decide (x = t)) as [->|]; naive_solver.
      * intros U HcU HtU.
        etrans; [apply IH3; set_solver|]. simpl.
        rewrite <- (size_difference_cons U closure t) by set_solver. lia.
Qed.

Lemma visit_items_spec items (closure : gset string) (stack : list string) :
  (∀ x, x ∈ (visit_items items (closure, stack)).1
        ↔ x ∈ closure ∨ eps_targets_of items x)
  ∧ (∀ x, x ∈ (visit_items items (closure, stack)).2
          ↔ x ∈ stack ∨ (eps_targets_of items x ∧ x ∉ closure))
  ∧ (∀ U : gset string, closure ⊆ U →
       (∀ item, item ∈ items → list_to_set item.2 ⊆ U) →
       length (visit_items items (closure, stack)).2
       + size (U ∖ (visit_items items (closure, stack)).1)
       ≤ length stack + size (U ∖ closure))%nat.
Proof.
  revert closure stack.
  induction items as [|[symbol targets] items IH]; intros closure stack.
  - simpl. unfold eps_targets_of. split_and!.
    + intros x. split; [auto|]. intros [?|(item & Hin & _)]; [done|].
      by apply elem_of_nil in Hin.
    + intros x. split; [auto|]. intros [?|[(item & Hin & _) _]]; [done|].
      by apply elem_of_nil in Hin.
    + intros; lia.
  - unfold visit_items in *. simpl.
    assert (∀ x, eps_targets_of ((symbol, targets) :: items) x
                 ↔ (is_epsilon symbol = true ∧ x ∈ targets) ∨ eps_targets_of items x)
      as Hcons.
    { intros x. unfold eps_targets_of. split.
      - intros (item & Hin & He & Hx). apply elem_of_cons in Hin as [->|Hin].
        + left. done.
        + right. eauto.
      - intros [[He Hx]|(item & Hin & He & Hx)].
        + exists (symbol, targets). split_and!; [left|done|done].
        + exists item. split_and!; [by right|done|done]. }
    destruct (is_epsilon symbol) eqn:Heps.
    + destruct (visit_targets_spec targets closure stack) as (V1 & V2 & V3).
      destruct (visit_targets targets (closure, stack)) as [c1 s1] eqn:Hv.
      simpl in V1, V2, V3.
      destruct (IH c1 s1) as (IH1 & IH2 & IH3).
      split_and!.
      * intros x. rewrite IH1, Hcons, V1, elem_of_union, elem_of_list_to_set.
        tauto.
      * intros x. rewrite IH2, Hcons, V2, V1, elem_of_union, elem_of_list_to_set.
        destruct (decide (x ∈ closure)); destruct (decide (x ∈ targets)); tauto.
      * intros U HcU HtU.
        assert (list_to_set targets ⊆ U) as HtU'.
        { apply (HtU (symbol, targets)). by left. }
        etrans; [apply IH3|].
        -- rewrite V1. set_solver.
        -- intros item Hin. apply HtU. by right.
        -- by apply V3.
    + destruct (IH closure stack) as (IH1 & IH2 & IH3).
      split_and!.
      * intros x. rewrite IH1, Hcons. naive_solver.
      * intros x. rewrite IH2, Hcons. naive_solver.
      * intros U HcU HtU. apply IH3; [done|].
        intros item Hin. apply HtU. by right.
Qed.

Lemma eps_targets_of_row (nfa : NFA.t) p row x :
  NFA.transitions nfa !! p = Some row →
  eps_targets_of (map_to_list row) x ↔ eps_edge nfa p x.
Proof.
  intros Hp. unfold eps_targets_of, eps_edge. split.
  - intros ([symbol targets] & Hin & He & Hx).
    apply elem_of_map_to_list in Hin. by exists row, symbol, targets.
  - intros (row' & symbol & targets & Hp' & Hrow & He & Hx).
    assert (row' = row) as -> by congruence.
    exists (symbol, targets). split_and!; [|done|done].
    by apply elem_of_map_to_list.
Qed.

(** The loop, from a state that satisfies its invariant and with fuel for
    the iterations that are left, ends with the least closed set. *)
Lemma closure_loop_spec (nfa : NFA.t) (U S0 : gset string) fuel stack closure :
  nfa_targets nfa ⊆ U → closure ⊆ U →
  S0 ⊆ closure →
  (∀ x, x ∈ stack → x ∈ closure) →
  (∀ p q, p ∈ closure → eps_edge nfa p q → q ∈ closure ∨ p ∈ stack) →
  (∀ P : string → Prop,
      (∀ x, x ∈ S0 → P x) → (∀ p q, P p → eps_edge nfa p q → P q) →
      ∀ x, x ∈ closure → P x) →
  (length stack + size (U ∖ closure) ≤ fuel)%nat →
  ∃ R, closure_loop fuel nfa stack closure = Ok R
       ∧ S0 ⊆ R ∧ eps_closed nfa R
       ∧ ∀ P : string → Prop,
           (∀ x, x ∈ S0 → P x) → (∀ p q, P p → eps_edge nfa p q → P q) →
           ∀ x, x ∈ R → P x.
Proof.
  revert stack closure.
  induction fuel as [|fuel IH]; intros stack closure HTU HcU HS Hstack Hdone Hleast Hfuel.
  - destruct stack as [|? ?]; [|simpl in Hfuel; lia].
    exists closure. simpl. split_and!; [done|done| |done].
    intros p q Hp Hedge. destruct (Hdone p q Hp Hedge) as [?|Hin]; [done|].
    by apply elem_of_nil in Hin.
  - destruct stack as [|current stack].
    { exists closure. simpl. split_and!; [done|done| |done].
      intros p q Hp Hedge. destruct (Hdone p q Hp Hedge) as [?|Hin]; [done|].
      by apply elem_of_nil in Hin. }
    simpl. simpl in Hfuel.
    assert (current ∈ closure) as Hcur by (apply Hstack; left).
    destruct (NFA.transitions nfa !! current) as [row|] eqn:Hrow.
    + destruct (visit_items_spec (map_to_list row) closure stack) as (V1 & V2 & V3).
      destruct (visit_items (map_to_list row) (closure, stack)) as [c1 s1] eqn:Hv.
      simpl in V1, V2, V3. simpl.
      assert (∀ item, item ∈ map_to_list row → list_to_set item.2 ⊆ U) as HrowU.
      { intros [symbol targets] Hin x Hx. apply elem_of_map_to_list in Hin.
        apply elem_of_list_to_set in Hx. apply HTU.
        by eapply nfa_targets_spec. }
      apply IH; try done.
      * intros x. rewrite V1. intros [?|(item & Hin & _ & Hx)]; [by apply HcU|].
        apply (HrowU item Hin). by apply elem_of_list_to_set.
      * intros x Hx. apply V1. left. by apply HS.
      * intros x. rewrite V2, V1. intros [Hx|[Hx _]]; [|by right].
        left. apply Hstack. by right.
      * intros p q. rewrite !V1, V2. intros [Hp|Hp] Hedge.
        -- destruct (Hdone p q Hp Hedge) as [Hq|Hin]; [by left; left|].
           apply elem_of_cons in Hin as [->|Hin]; [|by right; left].
           left. right. by apply (eps_targets_of_row nfa current row).
        -- destruct (decide (p ∈ closure)) as [Hpc|Hpc].
           ++ destruct (Hdone p q Hpc Hedge) as [Hq|Hin]; [by left; left|].
              apply elem_of_cons in Hin as [->|Hin]; [|by right; left].
              left. right. by apply (eps_targets_of_row nfa current row).
           ++ right. by right.
      * intros P HS' Hclosed x. rewrite V1. intros [Hx|Hx].
        -- by apply (Hleast P).
        -- apply (Hclosed current x).
           ++ by apply (Hleast P).
           ++ by apply (eps_targets_of_row nfa current row).
      * specialize (V3 U HcU HrowU). lia.
    + simpl. apply IH; try done.
      * intros x Hx. apply Hstack. by right.
      * intros p q Hp Hedge. destruct (Hdone p q Hp Hedge) as [Hq|Hin]; [by left|].
        apply elem_of_cons in Hin as [->|Hin]; [|by right].
        destruct Hedge as (row & ? & ? & Hrow' & _). congruence.
      * lia.
Qed.

Lemma get_epsilon_closure_spec (nfa : NFA.t) (S0 : gset string) :
  ∃ R, get_epsilon_closure iter_set nfa S0 = Ok R
       ∧ S0 ⊆ R ∧ eps_closed nfa R
       ∧ ∀ P : string → Prop,
           (∀ x, x ∈ S0 → P x) → (∀ p q, P p → eps_edge nfa p q → P q) →
           ∀ x, x ∈ R → P x.
Proof.
  unfold get_epsilon_closure.
  apply (closure_loop_spec nfa (S0 ∪ nfa_targets nfa) S0).
  - set_solver.
  - set_solver.
  - done.
  - intros x. rewrite elem_of_reverse. apply elem_of_iter_set.
  - intros p q Hp _. right. rewrite elem_of_reverse. by apply elem_of_iter_set.
  - intros P HS' _ x. apply HS'.
  - rewrite length_reverse, length_iter_set.
    assert (size (S0 ∪ nfa_targets nfa)
            = (size S0 + size ((S0 ∪ nfa_targets nfa) ∖ S0))%nat) as ->; [|lia].
    rewrite <- (size_union S0) by set_solver. f_equal.
    apply set_eq. intros x. rewrite !elem_of_union, elem_of_difference, elem_of_union.
    destruct (decide (x ∈ S0)); naive_solver.
Qed.

End Closure.

(** C9. [get_epsilon_closure] returns the smallest superset of its argument
    that is closed under epsilon transitions, and applying it to its own
    result returns that result again. *)
Theorem epsilon_closure_idempotent
    (iter_set : gset string → list string)
    (iter_set_perm : ∀ X, iter_set X ≡ₚ elements X)
    (nfa : NFA.t) (states_set : gset string) :
  ∃ R, get_epsilon_closure iter_set nfa states_set = Ok R
       ∧ get_epsilon_closure iter_set nfa R = Ok R
       ∧ states_set ⊆ R ∧ eps_closed nfa R
       ∧ ∀ R', states_set ⊆ R' → eps_closed nfa R' → R ⊆ R'.
Proof.
  destruct (get_epsilon_closure_spec iter_set iter_set_perm nfa states_set)
    as (R & HR & Hsub & Hclosed & Hleast).
  exists R.
  destruct (get_epsilon_closure_spec iter_set iter_set_perm nfa R)
    as (R2 & HR2 & Hsub2 & Hclosed2 & Hleast2).
  split_and!.
  - done.
  - rewrite HR2. f_equal.
    apply (anti_symm (⊆)); [|done].
    intros x. by apply (Hleast2 (.∈ R)).
  - done.
  - done.
  - intros R' HS' Hclosed' x. by apply (Hleast (.∈ R')).
Qed.

Lemma epsilon_closure_idempotent_witness :
  let nfa :=
    NFA.run (NFA.init (Some "A"))
      [AddState "A" false; AddTransition "A" "Epsilon" "B";
       AddState "B" false; AddTransition "B" "" "C"; AddTransition "B" "x" "D";
       AddState "C" true; AddState "D" false] in
  (∀ X : gset string, elements X ≡ₚ elements X)
  ∧ ∃ R, get_epsilon_closure elements nfa {["A"]} = Ok R
         ∧ get_epsilon_closure elements nfa R = Ok R
         ∧ {["A"]} ⊆ R ∧ eps_closed nfa R
         ∧ ∀ R', {["A"]} ⊆ R' → eps_closed nfa R' → R ⊆ R'.
Proof.
  intros nfa. split; [done|].
  exact (epsilon_closure_idempotent elements (λ X, reflexivity _) nfa {["A"]}).
Defined.

(** ** Subset construction *)

Lemma is_alphabet_symbol_negb symbol :
  is_alphabet_symbol symbol = negb (is_epsilon symbol).
Proof.
  unfold is_alphabet_symbol, is_epsilon.
  repeat case_bool_decide; simpl; try done; exfalso; naive_solver.
Qed.

Lemma elem_of_foldl_add (targets : list string) (acc : gset string) x :
  x ∈ foldl (λ result_states target, {[target]} ∪ result_states) acc targets
  ↔ x ∈ acc ∨ x ∈ targets.
Proof.
  revert acc. induction targets as [|t targets IH]; intros acc; simpl.
  - rewrite elem_of_nil. naive_solver.
  - rewrite IH, elem_of_cons, elem_of_union, elem_of_singleton. naive_solver.
Qed.

Lemma nfa_alphabet_spec (nfa : NFA.t) c :
  c ∈ nfa_alphabet nfa
  ↔ is_epsilon c = false
    ∧ ∃ p row, NFA.transitions nfa !! p = Some row ∧ is_Some (row !! c).
Proof.
  unfold nfa_alphabet.
  assert (∀ (ks : list string) (acc : gset string),
            c ∈ foldl (λ alphabet symbol,
                         if is_alphabet_symbol symbol then {[symbol]} ∪ alphabet
                         else alphabet) acc ks
            ↔ c ∈ acc ∨ (c ∈ ks ∧ is_epsilon c = false)) as Hinner.
  { induction ks as [|k ks IH]; intros acc; simpl.
    - rewrite elem_of_nil. naive_solver.
    - rewrite IH, elem_of_cons, is_alphabet_symbol_negb.
      destruct (is_epsilon k) eqn:Hk; simpl.
      + split; [naive_solver|]. intros [?|[[->|?] ?]]; [by left|congruence|by right].
      + rewrite elem_of_union, elem_of_singleton. naive_solver. }
  assert (∀ (items : list (string * gmap string (list string))) (acc : gset string),
            c ∈ foldl (λ alphabet item,
                         foldl (λ alphabet symbol,
                                  if is_alphabet_symbol symbol then {[symbol]} ∪ alphabet
                                  else alphabet)
                               alphabet (map_to_list (item.2 : gmap string (list string))).*1)
                      acc items
            ↔ c ∈ acc ∨ (is_epsilon c = false
                          ∧ ∃ item, item ∈ items ∧ is_Some (item.2 !! c))) as Houter.
  { induction items as [|item items IH]; intros acc; simpl.
    - split; [by left|]. intros [?|[_ (item & Hin & _)]]; [done|].
      by apply elem_of_nil in Hin.
    - rewrite IH, Hinner. split.
      + intros [[?|[Hin He]]|[He (item' & Hin & Hsome)]].
        * by left.
        * right. split; [done|]. exists item. split; [by left|].
          apply list_elem_of_fmap in Hin as ([k v] & -> & Hin).
          apply elem_of_map_to_list in Hin. by exists v.
        * right. split; [done|]. exists item'. split; [by right|done].
      + intros [?|[He (item' & Hin & [v Hv])]]; [by left; left|].
        apply elem_of_cons in Hin as [->|Hin].
        * left. right. split; [|done].
          apply list_elem_of_fmap. exists (c, v). split; [done|].
          by apply elem_of_map_to_list.
        * right. split; [done|]. exists item'. split; [done|by exists v]. }
  rewrite Houter. split.
  - intros [Hin|[He ([p row] & Hin & Hsome)]]; [by apply not_elem_of_empty in Hin|].
    split; [done|]. exists p, row. split; [|done]. by apply elem_of_map_to_list.
  - intros [He (p & row & Hp & Hsome)]. right. split; [done|].
    exists (p, row). split; [|done]. by apply elem_of_map_to_list.
Qed.

Lemma NFA_targets_alphabet (nfa : NFA.t) p c q :
  q ∈ NFA.targets nfa p c → is_epsilon c = false → c ∈ nfa_alphabet nfa.
Proof.
  unfold NFA.targets. intros Hq He. apply nfa_alphabet_spec. split; [done|].
  destruct (NFA.transitions nfa !! p) as [row|] eqn:Hp; simpl in Hq;
    [|by apply elem_of_nil in Hq].
  exists p, row. split; [done|].
  destruct (row !! c) as [ts|] eqn:Hc; [by exists ts|].
  simpl in Hq. by apply elem_of_nil in Hq.
Qed.

Section SubsetConstruction.

Variable iter_set : gset string → list string.
Hypothesis iter_set_perm : ∀ X, iter_set X ≡ₚ elements X.
Variable nfa : NFA.t.

Lemma get_epsilon_closure_ecl X :
  get_epsilon_closure iter_set nfa X = Ok (ecl iter_set nfa X).
Proof.
  unfold ecl.
  destruct (get_epsilon_closure_spec iter_set iter_set_perm nfa X) as (R & -> & _).
  done.
Qed.

Lemma ecl_spec X x :
  x ∈ ecl iter_set nfa X ↔ ∃ p, p ∈ X ∧ rtc (eps_edge nfa) p x.
Proof.
  unfold ecl.
  destruct (get_epsilon_closure_spec iter_set iter_set_perm nfa X)
    as (R & -> & Hsub & Hclosed & Hleast).
  split.
  - apply (Hleast (λ x, ∃ p, p ∈ X ∧ rtc (eps_edge nfa) p x)).
    + intros y Hy. by exists y.
    + intros p q (p0 & Hp0 & Hrtc) Hedge. exists p0. split; [done|].
      by eapply rtc_r.
  - intros (p & Hp & Hrtc). apply Hsub in Hp.
    induction Hrtc as [|p q r Hedge _ IH]; [done|].
    apply IH. by apply (Hclosed p q).
Qed.

Lemma ecl_empty : ecl iter_set nfa ∅ = ∅.
Proof.
  apply set_eq. intros x. rewrite ecl_spec. set_solver.
Qed.

Lemma ecl_nonempty X : X ≠ ∅ → ecl iter_set nfa X ≠ ∅.
Proof.
  intros HX. apply set_choose_L in HX as [x Hx].
  intros He. assert (x ∈ ecl iter_set nfa X) as Hin.
  { apply ecl_spec. by exists x. }
  rewrite He in Hin. by apply not_elem_of_empty in Hin.
Qed.

Lemma move_spec X c x :
  x ∈ move iter_set nfa X c ↔ ∃ p, p ∈ X ∧ x ∈ NFA.targets nfa p c.
Proof.
  unfold move.
  assert (∀ (l : list string) (acc : gset string),
            x ∈ foldl (λ result_states state,
                         match NFA.transitions nfa !! state with
                         | Some row =>
                             match row !! c with
                             | Some targets =>
                                 foldl (λ result_states target, {[target]} ∪ result_states)
                                       result_states targets
                             | None => result_states
                             end
                         | None => result_states
                         end) acc l
            ↔ x ∈ acc ∨ ∃ p, p ∈ l ∧ x ∈ NFA.targets nfa p c) as Hfold.
  { induction l as [|s l IH]; intros acc; simpl.
    - split; [by left|]. intros [?|(p & Hin & _)]; [done|].
      by apply elem_of_nil in Hin.
    - rewrite IH.
      assert (x ∈ match NFA.transitions nfa !! s with
                  | Some row =>
                      match row !! c with
                      | Some targets =>
                          foldl (λ result_states target, {[target]} ∪ result_states)
                                acc targets
                      | None => acc
                      end
                  | None => acc
                  end ↔ x ∈ acc ∨ x ∈ NFA.targets nfa s c) as ->.
      { unfold NFA.targets.
        destruct (NFA.transitions nfa !! s) as [row|]; simpl;
          [|rewrite elem_of_nil; naive_solver].
        destruct (row !! c) as [ts|]; simpl; [|rewrite elem_of_nil; naive_solver].
        apply elem_of_foldl_add. }
      split.
      + intros [[?|?]|(p & Hin & Hx)]; [by left| |].
        * right. exists s. split; [by left|done].
        * right. exists p. split; [by right|done].
      + intros [?|(p & Hin & Hx)]; [by left; left|].
        apply elem_of_cons in Hin as [->|Hin]; [by left; right|].
        right. by exists p. }
  rewrite Hfold. split.
  - intros [Hin|(p & Hin & Hx)]; [by apply not_elem_of_empty in Hin|].
    exists p. split; [|done]. by apply (elem_of_iter_set iter_set iter_set_perm).
  - intros (p & Hin & Hx). right. exists p. split; [|done].
    by apply (elem_of_iter_set iter_set iter_set_perm).
Qed.

Lemma move_empty c : move iter_set nfa ∅ c = ∅.
Proof. apply set_eq. intros x. rewrite move_spec. set_solver. Qed.

Lemma move_not_in_alphabet X c :
  is_epsilon c = false → c ∉ nfa_alphabet nfa → move iter_set nfa X c = ∅.
Proof.
  intros He Hc. apply set_eq. intros x. rewrite move_spec.
  split; [|set_solver]. intros (p & _ & Hx). exfalso. apply Hc.
  by eapply NFA_targets_alphabet.
Qed.

Lemma any_final_spec (F X : gset string) :
  any_final iter_set F X = true ↔ ∃ s, s ∈ X ∧ s ∈ F.
Proof.
  unfold any_final. rewrite existsb_exists. split.
  - intros (s & Hin & Hs). exists s. apply list_elem_of_In in Hin.
    apply (elem_of_iter_set iter_set iter_set_perm) in Hin.
    by apply bool_decide_eq_true in Hs.
  - intros (s & Hin & Hs). exists s. split.
    + apply list_elem_of_In. by apply (elem_of_iter_set iter_set iter_set_perm).
    + by apply bool_decide_eq_true.
Qed.

Lemma run_set_empty w : run_set iter_set nfa ∅ w = ∅.
Proof.
  induction w as [|c w IH]; [done|]. simpl. by rewrite move_empty, ecl_empty.
Qed.

Lemma nfa_path_eps_star p q w r :
  rtc (eps_edge nfa) p q → nfa_path nfa q w r → nfa_path nfa p w r.
Proof.
  induction 1 as [|p q q' Hedge _ IH]; [done|].
  intros Hpath. eapply nfa_path_eps; [done|]. by apply IH.
Qed.

(** The set computed by closures and moves is the set of states that the
    NFA can be in after reading the word. *)
Lemma run_set_spec X w r :
  r ∈ run_set iter_set nfa (ecl iter_set nfa X) w
  ↔ ∃ p, p ∈ X ∧ nfa_path nfa p w r.
Proof.
  split.
  - revert X. induction w as [|c w IH]; intros X; simpl.
    + rewrite ecl_spec. intros (p & Hp & Hrtc). exists p. split; [done|].
      eapply nfa_path_eps_star; [done|]. constructor.
    + intros Hr. apply IH in Hr as (q & Hq & Hpath).
      apply move_spec in Hq as (p' & Hp' & Hq).
      apply ecl_spec in Hp' as (p & Hp & Hrtc).
      exists p. split; [done|].
      eapply nfa_path_eps_star; [done|]. by eapply nfa_path_symbol.
  - intros (p & Hp & Hpath).
    assert (p ∈ ecl iter_set nfa X) as Hin.
    { apply ecl_spec. by exists p. }
    clear Hp. revert X Hin.
    induction Hpath as [q|p q w r Hedge _ IH|p c q w r Hq _ IH]; intros X Hin.
    + done.
    + apply IH. apply ecl_spec in Hin as (p0 & Hp0 & Hrtc).
      apply ecl_spec. exists p0. split; [done|]. by eapply rtc_r.
    + simpl. apply IH. apply ecl_spec. exists q. split; [|done].
      apply move_spec. by exists p.
Qed.

End SubsetConstruction.

(** *** Counting the subsets *)

Lemma length_subsets l : length (subsets l) = (2 ^ length l)%nat.
Proof.
  induction l as [|x l IH]; [done|].
  simpl. rewrite length_app, length_fmap, IH. lia.
Qed.

Lemma elem_of_subsets l (X : gset string) :
  X ⊆ list_to_set l → X ∈ subsets l.
Proof.
  revert X. induction l as [|x l IH]; intros X HX; simpl.
  - apply list_elem_of_singleton. apply set_eq. set_solver.
  - apply elem_of_app. destruct (decide (x ∈ X)) as [Hx|Hx].
    + right. apply list_elem_of_fmap. exists (X ∖ {[x]}). split.
      * apply set_eq. intros y. rewrite elem_of_union, elem_of_difference,
          elem_of_singleton. destruct (decide (y = x)) as [->|]; naive_solver.
      * apply IH. set_solver.
    + left. apply IH. set_solver.
Qed.

Lemma size_list_to_set_le (l : list (gset string)) :
  (size (list_to_set l : gset (gset string)) ≤ length l)%nat.
Proof.
  induction l as [|X l IH].
  - rewrite list_to_set_nil, size_empty. done.
  - rewrite list_to_set_cons. simpl.
    rewrite (size_union_alt {[X]} (list_to_set l)), size_singleton.
    assert (size ((list_to_set l : gset (gset string)) ∖ {[X]})
            ≤ size (list_to_set l : gset (gset string)))%nat.
    { apply subseteq_size. set_solver. }
    lia.
Qed.

Lemma size_subsets_bound (F : gset (gset string)) (U : gset string) :
  (∀ X, X ∈ F → X ⊆ U) → (size F ≤ 2 ^ size U)%nat.
Proof.
  intros HF.
  assert (F ⊆ list_to_set (subsets (elements U))) as Hsub.
  { intros X HX. apply elem_of_list_to_set, elem_of_subsets.
    intros x Hx. apply elem_of_list_to_set, elem_of_elements. by apply (HF X). }
  apply subseteq_size in Hsub.
  etrans; [exact Hsub|]. etrans; [apply size_list_to_set_le|].
  by rewrite length_subsets.
Qed.

Lemma state_name_inj i j : state_name i = state_name j → i = j.
Proof.
  unfold state_name. simpl. intros H. injection H as H. by apply (inj pretty).
Qed.

Lemma state_name_0 : state_name 0 = "S0".
Proof. reflexivity. Qed.

Lemma DFA_add_transition_delta (dfa : DFA.t) f c x s c' :
  DFA.delta (DFA.add_transition dfa f c x) s c'
  = if decide (f = s ∧ c = c') then Some x else DFA.delta dfa s c'.
Proof.
  unfold DFA.delta; simpl.
  destruct (decide (f = s)) as [->|Hne].
  - rewrite lookup_insert_eq. simpl.
    destruct (decide (c = c')) as [->|Hc].
    + rewrite lookup_insert_eq. by rewrite decide_True.
    + rewrite lookup_insert_ne by done. rewrite decide_False by naive_solver.
      by destruct (DFA.transitions dfa !! s).
  - rewrite lookup_insert_ne by done. by rewrite decide_False by naive_solver.
Qed.

#[local] Arguments state_name : simpl never.

Section SubsetLoop.

Variable iter_set : gset string → list string.
Hypothesis iter_set_perm : ∀ X, iter_set X ≡ₚ elements X.
Variable nfa : NFA.t.
Variable U : gset string.
Hypothesis targets_within : nfa_targets nfa ⊆ U.

Lemma ecl_within X : X ⊆ U → ecl iter_set nfa X ⊆ U.
Proof.
  intros HX x Hx. apply (ecl_spec iter_set iter_set_perm) in Hx as (p & Hp & Hrtc).
  apply rtc_inv_r in Hrtc as [->|(q & _ & Hedge)]; [by apply HX|].
  destruct Hedge as (row & symbol & targets & Hq & Hrow & _ & Hin).
  apply targets_within. by eapply nfa_targets_spec.
Qed.

Lemma move_within X c : move iter_set nfa X c ⊆ U.
Proof.
  intros x Hx. apply (move_spec iter_set iter_set_perm) in Hx as (p & _ & Hx).
  unfold NFA.targets in Hx.
  destruct (NFA.transitions nfa !! p) as [row|] eqn:Hp; simpl in Hx;
    [|by apply elem_of_nil in Hx].
  destruct (row !! c) as [ts|] eqn:Hc; simpl in Hx; [|by apply elem_of_nil in Hx].
  apply targets_within. by eapply nfa_targets_spec.
Qed.

Lemma expand_spec cur n0 c rest st :
  conv_inv iter_set nfa U cur (c :: rest) st →
  cs_states_map st !! cur = Some n0 → cur ∈ cs_processed st →
  c ∈ nfa_alphabet nfa →
  ∃ st', expand iter_set nfa cur n0 st c = Ok st'
         ∧ conv_inv iter_set nfa U cur rest st'
         ∧ cs_states_map st' !! cur = Some n0
         ∧ cs_processed st' = cs_processed st
         ∧ (length (cs_worklist st') + size (cs_states_map st)
            = length (cs_worklist st) + size (cs_states_map st'))%nat.
Proof.
  intros Hinv Hcur Hproc Hc.
  destruct st as [dfa smap work counter processed]; simpl in *.
  unfold expand. rewrite (get_epsilon_closure_ecl iter_set iter_set_perm). simpl.
  set (Y := ecl iter_set nfa (move iter_set nfa cur c)).
  destruct (decide (Y = ∅)) as [HY|HY].
  { eexists. split; [done|]. split; [|done].
    destruct Hinv; constructor; simpl in *; try done.
    intros X n c' HX HXp Hrest Hc' Hne. apply (ci_complete0 X); try done.
    intros ->. intros [->|?]%elem_of_cons; [done|by apply Hrest]. }
  destruct (smap !! Y) as [m|] eqn:HmY; simpl.
  { unfold getitem. rewrite HmY. simpl. eexists. split; [done|].
    split; [|done].
    destruct Hinv; constructor; simpl in *; try done.
    - intros n c' m'. rewrite DFA_add_transition_delta. case_decide as Heq.
      + destruct Heq as [<- <-]. intros [= <-]. by exists cur.
      + apply ci_sound0.
    - intros X n c' HX HXp Hrest Hc' Hne. rewrite DFA_add_transition_delta.
      case_decide as Heq; [done|]. apply (ci_complete0 X); try done.
      intros ->. assert (n = n0) as -> by congruence.
      intros [->|?]%elem_of_cons; [naive_solver|by apply Hrest].
    - intros n row. destruct (decide (n0 = n)) as [<-|Hne].
      + intros _. apply ci_states0. by exists cur.
      + rewrite lookup_insert_ne by done. apply ci_rows0. }
  unfold getitem. rewrite lookup_insert_eq. simpl. eexists. split; [done|].
  assert (∀ X n, smap !! X = Some n → n ≠ state_name counter) as Hfresh.
  { intros X n HX ->. destruct (ci_names _ _ _ _ _ _ Hinv X _ HX) as (i & Hi & Heq).
    simpl in Hi. apply state_name_inj in Heq. lia. }
  assert (state_name counter ∉ DFA.final_states dfa) as Hfresh_final.
  { intros Hin. destruct (ci_final_names _ _ _ _ _ _ Hinv _ Hin) as (i & Hi & Heq).
    simpl in Hi. apply state_name_inj in Heq. lia. }
  assert (∀ X n, smap !! X = Some n → <[Y := state_name counter]> smap !! X = Some n)
    as Hkeep.
  { intros X n HX. rewrite lookup_insert_ne; [done|]. intros ->. congruence. }
  split; [|split; [|split; [done|]]].
  - destruct Hinv; constructor; simpl in *.
    + done.
    + by apply Hkeep.
    + intros X n. destruct (decide (Y = X)) as [<-|Hne].
      * rewrite lookup_insert_eq. intros [= <-]. exists counter. split; [lia|done].
      * rewrite lookup_insert_ne by done. intros HX.
        destruct (ci_names0 X n HX) as (i & Hi & ->). exists i. split; [lia|done].
    + intros X X' n. destruct (decide (Y = X)) as [<-|Hne];
        destruct (decide (Y = X')) as [<-|Hne'];
        rewrite ?lookup_insert_eq, ?lookup_insert_ne by done.
      * done.
      * intros [= <-] HX'. by destruct (Hfresh X' _ HX').
      * intros HX [= <-]. by destruct (Hfresh X _ HX).
      * apply ci_inj0.
    + intros X n. destruct (decide (Y = X)) as [<-|Hne].
      * intros _. apply ecl_within, move_within.
      * rewrite lookup_insert_ne by done. apply ci_within0.
    + intros X n. destruct (decide (Y = X)) as [<-|Hne].
      * rewrite lookup_insert_eq. intros [= <-].
        rewrite <- (any_final_spec iter_set iter_set_perm).
        destruct (any_final iter_set (NFA.final_states nfa) Y); [set_solver|].
        split; [done|]. done.
      * rewrite lookup_insert_ne by done. intros HX.
        rewrite <- (ci_final0 X n HX).
        destruct (any_final iter_set (NFA.final_states nfa) Y); [|done].
        rewrite elem_of_union, elem_of_singleton. split; [|by right].
        intros [->|?]; [by destruct (Hfresh X _ HX)|done].
    + intros n Hn.
      assert (n = state_name counter ∨ n ∈ DFA.final_states dfa) as [->|Hn'].
      { destruct (any_final iter_set (NFA.final_states nfa) Y); [set_solver|by right]. }
      * exists counter. split; [lia|done].
      * destruct (ci_final_names0 n Hn') as (i & Hi & ->). exists i. split; [lia|done].
    + intros n c' m'. rewrite DFA_add_transition_delta, DFA_add_state_delta.
      case_decide as Heq.
      * destruct Heq as [<- <-]. intros [= <-]. exists cur.
        split_and!; [by apply Hkeep|done|done|]. apply lookup_insert_eq.
      * intros Hd. destruct (ci_sound0 n c' m' Hd) as (X & HX & Hc' & Hne & Hm').
        exists X. split_and!; [by apply Hkeep|done|done|by apply Hkeep].
    + intros X n c' HX HXp Hrest Hc' Hne.
      rewrite DFA_add_transition_delta, DFA_add_state_delta.
      case_decide as Heq; [done|].
      assert (Y ≠ X) as HYX.
      { intros <-. destruct (ci_processed0 Y HXp) as [? ?]. congruence. }
      rewrite lookup_insert_ne in HX by done.
      apply (ci_complete0 X); try done.
      intros ->. assert (n = n0) as -> by congruence.
      intros [->|?]%elem_of_cons; [naive_solver|by apply Hrest].
    + intros X. destruct (decide (Y = X)) as [<-|HYX].
      * intros _. right. apply elem_of_app. right. by left.
      * rewrite lookup_insert_ne by done. intros HX.
        destruct (ci_covered0 X HX) as [?|?]; [by left|].
        right. apply elem_of_app. by left.
    + intros X [HX|HX%list_elem_of_singleton]%elem_of_app.
      * destruct (ci_worklist0 X HX) as [n Hn]. exists n. by apply Hkeep.
      * subst X. rewrite lookup_insert_eq. by eexists.
    + intros X HX. destruct (ci_processed0 X HX) as [n Hn]. exists n. by apply Hkeep.
    + intros n. rewrite elem_of_union, elem_of_singleton, ci_states0. split.
      * intros [->|(X & HX)]; [exists Y; apply lookup_insert_eq|].
        exists X. by apply Hkeep.
      * intros (X & HX). destruct (decide (Y = X)) as [<-|HYX].
        -- rewrite lookup_insert_eq in HX. left. congruence.
        -- rewrite lookup_insert_ne in HX by done. right. by exists X.
    + destruct (any_final iter_set (NFA.final_states nfa) Y); set_solver.
    + intros n row. rewrite elem_of_union, elem_of_singleton.
      destruct (decide (n0 = n)) as [<-|Hne].
      { intros _. right. apply ci_states0. by exists cur. }
      rewrite lookup_insert_ne by done.
      destruct (DFA.transitions dfa !! state_name counter) eqn:Hrow.
      { intros Hn. right. by apply (ci_rows0 n row). }
      destruct (decide (state_name counter = n)) as [<-|Hne']; [by left|].
      rewrite lookup_insert_ne by done. intros Hn. right. by apply (ci_rows0 n row).
  - by apply Hkeep.
  - simpl. rewrite length_app. simpl.
    rewrite map_size_insert_None by done. lia.
Qed.

End SubsetLoop.

Section SubsetMain.

Variable iter_set : gset string → list string.
Hypothesis iter_set_perm : ∀ X, iter_set X ≡ₚ elements X.
Variable nfa : NFA.t.
Variable U : gset string.
Hypothesis targets_within : nfa_targets nfa ⊆ U.

Lemma expand_all_spec cur n0 rest st :
  (∀ c, c ∈ rest → c ∈ nfa_alphabet nfa) →
  conv_inv iter_set nfa U cur rest st →
  cs_states_map st !! cur = Some n0 → cur ∈ cs_processed st →
  ∃ st', for_each (expand iter_set nfa cur n0) rest st = Ok st'
         ∧ conv_inv iter_set nfa U cur [] st'
         ∧ (length (cs_worklist st') + size (cs_states_map st)
            = length (cs_worklist st) + size (cs_states_map st'))%nat.
Proof.
  revert st. induction rest as [|c rest IH]; intros st Hrest Hinv Hcur Hproc.
  - exists st. simpl. done.
  - simpl.
    destruct (expand_spec iter_set iter_set_perm nfa U targets_within
                cur n0 c rest st Hinv Hcur Hproc)
      as (st1 & -> & Hinv1 & Hcur1 & Hproc1 & Hsize1).
    { apply Hrest. by left. }
    simpl.
    destruct (IH st1) as (st2 & -> & Hinv2 & Hsize2).
    + intros c' Hc'. apply Hrest. by right.
    + done.
    + done.
    + by rewrite Hproc1.
    + exists st2. split; [done|]. split; [done|]. lia.
Qed.

Lemma sorted_alphabet_elem (alphabet : gset string) c :
  c ∈ sorted (iter_set alphabet) ↔ c ∈ alphabet.
Proof.
  unfold sorted. rewrite merge_sort_Permutation.
  apply (elem_of_iter_set iter_set iter_set_perm).
Qed.

Lemma convert_loop_spec fuel cur st :
  conv_inv iter_set nfa U cur [] st →
  (length (cs_worklist st) + 2 ^ size U ≤ fuel + size (cs_states_map st))%nat →
  ∃ st' cur', convert_loop iter_set fuel nfa (nfa_alphabet nfa) st = Ok (cs_dfa st')
              ∧ conv_inv iter_set nfa U cur' [] st'
              ∧ cs_worklist st' = [].
Proof.
  revert cur st. induction fuel as [|fuel IH]; intros cur st Hinv Hfuel.
  - assert (size (cs_states_map st) ≤ 2 ^ size U)%nat as Hbound.
    { rewrite <- size_dom. apply size_subsets_bound.
      intros X [n Hn]%elem_of_dom. by apply (ci_within _ _ _ _ _ _ Hinv X n). }
    destruct (cs_worklist st) as [|X0 work] eqn:Hwork; [|simpl in Hfuel; lia].
    exists st, cur. simpl. by rewrite Hwork.
  - destruct (cs_worklist st) as [|X0 work] eqn:Hwork.
    { exists st, cur. simpl. by rewrite Hwork. }
    simpl. rewrite Hwork.
    destruct (ci_worklist _ _ _ _ _ _ Hinv X0) as [n0 Hn0].
    { rewrite Hwork. by left. }
    unfold getitem. rewrite Hn0. simpl.
    destruct st as [dfa smap work0 counter processed]; simpl in *. subst work0.
    destruct (decide (X0 ∈ processed)) as [Hproc|Hproc].
    + apply (IH cur); [|simpl; lia].
      destruct Hinv; constructor; simpl in *; try done.
      * intros X HX. destruct (ci_covered0 X HX) as [?|[->|?]%elem_of_cons];
          [by left|by left|by right].
      * intros X HX. apply ci_worklist0. by right.
    + destruct (expand_all_spec X0 n0 (sorted (iter_set (nfa_alphabet nfa)))
                  {| cs_dfa := dfa; cs_states_map := smap; cs_worklist := work;
                     cs_counter := counter;
                     cs_processed := {[X0]} ∪ processed |})
        as (st2 & -> & Hinv2 & Hsize2).
      * intros c. by rewrite sorted_alphabet_elem.
      * destruct Hinv; constructor; simpl in *; try done.
        -- intros X n c HX HXp Hrest Hc Hne.
           apply (ci_complete0 X); try done.
           ++ apply elem_of_union in HXp as [->%elem_of_singleton|?]; [|done].
              exfalso. apply Hrest; [done|]. by apply sorted_alphabet_elem.
           ++ intros _. apply not_elem_of_nil.
        -- intros X HX. destruct (ci_covered0 X HX) as [?|[->|?]%elem_of_cons].
           ++ left. set_solver.
           ++ left. set_solver.
           ++ by right.
        -- intros X HX. apply ci_worklist0. by right.
        -- intros X [->%elem_of_singleton|?]%elem_of_union; [by exists n0|].
           by apply ci_processed0.
      * done.
      * simpl. set_solver.
      * simpl. apply (IH X0); [done|]. simpl in Hsize2. lia.
Qed.

End SubsetMain.

Section SubsetResult.

Variable iter_set : gset string → list string.
Hypothesis iter_set_perm : ∀ X, iter_set X ≡ₚ elements X.
Variable nfa : NFA.t.

(** The conversion ends, and its result is the DFA of a state of the loop
    that satisfies the invariant and has an empty worklist. *)
Lemma convert_nfa_to_dfa_inv :
  ∃ st cur, convert_nfa_to_dfa iter_set nfa = Ok (cs_dfa st)
            ∧ conv_inv iter_set nfa (start_set nfa ∪ nfa_targets nfa) cur [] st
            ∧ cs_worklist st = [].
Proof.
  unfold convert_nfa_to_dfa.
  rewrite (get_epsilon_closure_ecl iter_set iter_set_perm). simpl.
  set (U := start_set nfa ∪ nfa_targets nfa).
  set (X0 := ecl iter_set nfa (start_set nfa)).
  assert (nfa_targets nfa ⊆ U) as HU by set_solver.
  apply (convert_loop_spec iter_set iter_set_perm nfa U HU _ ∅).
  - constructor; simpl.
    + done.
    + apply lookup_singleton_eq.
    + intros X n [-> <-]%lookup_singleton_Some. exists 0. split; [lia|done].
    + intros X Y n [-> _]%lookup_singleton_Some [-> _]%lookup_singleton_Some. done.
    + intros X n [<- _]%lookup_singleton_Some.
      apply (ecl_within iter_set iter_set_perm nfa U HU). set_solver.
    + intros X n [<- <-]%lookup_singleton_Some.
      rewrite <- (any_final_spec iter_set iter_set_perm).
      fold X0. destruct (any_final iter_set (NFA.final_states nfa) X0); set_solver.
    + intros n Hn. exists 0. split; [lia|].
      destruct (any_final iter_set (NFA.final_states nfa) X0); set_solver.
    + intros n c m. unfold DFA.delta. simpl. rewrite lookup_empty.
      destruct (decide ("S0" = n)) as [<-|Hne].
      * rewrite lookup_insert_eq. simpl. by rewrite lookup_empty.
      * rewrite lookup_insert_ne by done. by rewrite lookup_empty.
    + intros X n c _ HX. by apply not_elem_of_empty in HX.
    + intros X [n [<- _]%lookup_singleton_Some]. right. by left.
    + intros X ->%list_elem_of_singleton. rewrite lookup_singleton_eq. by eexists.
    + intros X HX. by apply not_elem_of_empty in HX.
    + intros n. rewrite elem_of_union, elem_of_singleton. split.
      * intros [->|Hn]; [|by apply not_elem_of_empty in Hn].
        exists X0. apply lookup_singleton_eq.
      * intros (X & [_ <-]%lookup_singleton_Some). by left.
    + destruct (any_final iter_set (NFA.final_states nfa) X0); set_solver.
    + intros n row. rewrite lookup_empty.
      destruct (decide ("S0" = n)) as [<-|Hne]; [set_solver|].
      rewrite lookup_insert_ne by done. by rewrite lookup_empty.
  - simpl. rewrite map_size_singleton. lia.
Qed.

(** In a finished state of the loop, the DFA follows the sets of states of
    the NFA. *)
Lemma conv_inv_run U cur st w X n :
  conv_inv iter_set nfa U cur [] st → cs_worklist st = [] →
  Forall (λ c, is_epsilon c = false) w →
  cs_states_map st !! X = Some n →
  match dfa_run (cs_dfa st) n w with
  | Some m => cs_states_map st !! run_set iter_set nfa X w = Some m
  | None => run_set iter_set nfa X w = ∅
  end.
Proof.
  intros Hinv Hdone Hw. revert X n.
  induction Hw as [|c w Hc _ IH]; intros X n HX; simpl; [done|].
  destruct (DFA.delta (cs_dfa st) n c) as [m|] eqn:Hd; simpl.
  - destruct (ci_sound _ _ _ _ _ _ Hinv n c m Hd) as (X' & HX' & _ & _ & Hm).
    assert (X' = X) as -> by (by eapply (ci_inj _ _ _ _ _ _ Hinv)).
    by apply IH.
  - assert (ecl iter_set nfa (move iter_set nfa X c) = ∅) as ->;
      [|apply (run_set_empty iter_set iter_set_perm)].
    destruct (decide (c ∈ nfa_alphabet nfa)) as [Hin|Hin].
    + destruct (decide (ecl iter_set nfa (move iter_set nfa X c) = ∅)) as [|Hne];
        [done|].
      assert (is_Some (DFA.delta (cs_dfa st) n c)) as [m Hm]; [|congruence].
      apply (ci_complete _ _ _ _ _ _ Hinv X); try done.
      * destruct (ci_covered _ _ _ _ _ _ Hinv X) as [?|Hwork]; [by eexists|done|].
        rewrite Hdone in Hwork. by apply elem_of_nil in Hwork.
      * intros _. apply not_elem_of_nil.
    + rewrite (move_not_in_alphabet iter_set iter_set_perm) by done.
      apply (ecl_empty iter_set iter_set_perm).
Qed.

Lemma conv_inv_accepts U cur st w :
  conv_inv iter_set nfa U cur [] st → cs_worklist st = [] →
  Forall (λ c, is_epsilon c = false) w →
  dfa_accepts (cs_dfa st) w ↔ nfa_accepts nfa w.
Proof.
  intros Hinv Hdone Hw.
  pose proof (conv_inv_run U cur st w _ _ Hinv Hdone Hw
                (ci_start_map _ _ _ _ _ _ Hinv)) as Hrun.
  assert (∀ s, s ∈ run_set iter_set nfa (ecl iter_set nfa (start_set nfa)) w
               ↔ ∃ q0, NFA.start_state nfa = Some q0 ∧ nfa_path nfa q0 w s) as Hset.
  { intros s. rewrite (run_set_spec iter_set iter_set_perm). unfold start_set.
    destruct (NFA.start_state nfa) as [q0|].
    - split.
      + intros (p & ->%elem_of_singleton & Hp). by exists q0.
      + intros (? & [= <-] & Hp). exists q0. split; [set_solver|done].
    - split; [set_solver|]. by intros (? & ? & _). }
  unfold dfa_accepts, dfa_accepts_from, nfa_accepts.
  rewrite (ci_start _ _ _ _ _ _ Hinv). split.
  - intros (q0 & [= <-] & qf & Hqf & Hfinal). rewrite Hqf in Hrun.
    apply (ci_final _ _ _ _ _ _ Hinv _ _ Hrun) in Hfinal as (s & Hs & Hsf).
    apply Hset in Hs as (q0 & Hq0 & Hpath). by exists q0, s.
  - intros (q0 & s & Hq0 & Hpath & Hsf).
    assert (s ∈ run_set iter_set nfa (ecl iter_set nfa (start_set nfa)) w) as Hs.
    { apply Hset. by exists q0. }
    exists "S0". split; [done|].
    destruct (dfa_run (cs_dfa st) "S0" w) as [m|].
    + exists m. split; [done|].
      apply (ci_final _ _ _ _ _ _ Hinv _ _ Hrun). by exists s.
    + rewrite Hrun in Hs. by apply not_elem_of_empty in Hs.
Qed.

End SubsetResult.

(** X1. [move] returns exactly the targets, on the given symbol, of the
    states of the given set; it is empty when no state of the set has a
    transition on the symbol. *)
Theorem move_collects_targets
    (iter_set : gset string → list string)
    (iter_set_perm : ∀ X, iter_set X ≡ₚ elements X)
    (nfa : NFA.t) (states_set : gset string) (symbol : string) :
  (∀ x, x ∈ move iter_set nfa states_set symbol
        ↔ ∃ p, p ∈ states_set ∧ x ∈ NFA.targets nfa p symbol)
  ∧ ((∀ p, p ∈ states_set → NFA.targets nfa p symbol = []) →
     move iter_set nfa states_set symbol = ∅).
Proof.
  split.
  - intros x. apply (move_spec iter_set iter_set_perm).
  - intros Hnone. apply set_eq. intros x.
    rewrite (move_spec iter_set iter_set_perm). split; [|set_solver].
    intros (p & Hp & Hx). rewrite (Hnone p Hp) in Hx. by apply elem_of_nil in Hx.
Qed.

Lemma move_collects_targets_witness :
  let nfa :=
    NFA.run (NFA.init (Some "A"))
      [AddState "A" false; AddTransition "A" "x" "B"; AddTransition "A" "x" "C";
       AddState "B" false; AddTransition "B" "y" "C"; AddState "C" true] in
  (∀ X : gset string, elements X ≡ₚ elements X)
  ∧ (∀ x, x ∈ move elements nfa {["A"; "B"]} "x"
          ↔ ∃ p, p ∈ ({["A"; "B"]} : gset string) ∧ x ∈ NFA.targets nfa p "x")
  ∧ ((∀ p, p ∈ ({["A"; "B"]} : gset string) → NFA.targets nfa p "x" = []) →
     move elements nfa {["A"; "B"]} "x" = ∅).
Proof.
  intros nfa. split; [done|].
  exact (move_collects_targets elements (λ X, reflexivity _) nfa {["A"; "B"]} "x").
Defined.

(** X2. The alphabet that [convert_nfa_to_dfa] computes consists of the
    symbols of the transition table that fail the epsilon test of
    [get_epsilon_closure]: the two tests, written separately in the source,
    are complementary, so that every symbol is either followed by the
    closure or tried by the subset construction, never both. *)
Theorem alphabet_is_non_epsilon_symbols (nfa : NFA.t) :
  (∀ symbol, is_alphabet_symbol symbol = negb (is_epsilon symbol))
  ∧ ∀ c, c ∈ nfa_alphabet nfa
         ↔ is_epsilon c = false
           ∧ ∃ p row, NFA.transitions nfa !! p = Some row ∧ is_Some (row !! c).
Proof.
  split; [apply is_alphabet_symbol_negb|apply nfa_alphabet_spec].
Qed.

(** X3. Subset construction: [convert_nfa_to_dfa] returns a DFA (the
    worklist loop ends within its fuel and no lookup fails), and this DFA
    accepts a word none of whose symbols is a spelling of epsilon, in
    particular every word over the alphabet of the NFA, if and only if the
    NFA has a run on the word from its start state to a final state. *)
Theorem subset_construction_equivalence
    (iter_set : gset string → list string)
    (iter_set_perm : ∀ X, iter_set X ≡ₚ elements X)
    (nfa : NFA.t) :
  ∃ dfa, convert_nfa_to_dfa iter_set nfa = Ok dfa
         ∧ (∀ w, Forall (λ c, is_epsilon c = false) w →
                 (dfa_accepts dfa w ↔ nfa_accepts nfa w))
         ∧ (∀ w, Forall (λ c, c ∈ nfa_alphabet nfa) w →
                 (dfa_accepts dfa w ↔ nfa_accepts nfa w)).
Proof.
  destruct (convert_nfa_to_dfa_inv iter_set iter_set_perm nfa)
    as (st & cur & Hconv & Hinv & Hdone).
  exists (cs_dfa st). split; [done|].
  assert (∀ w, Forall (λ c, is_epsilon c = false) w →
               (dfa_accepts (cs_dfa st) w ↔ nfa_accepts nfa w)) as Hmain.
  { intros w Hw. by eapply (conv_inv_accepts iter_set iter_set_perm). }
  split; [done|].
  intros w Hw. apply Hmain. eapply Forall_impl; [exact Hw|].
  intros c Hc. by apply nfa_alphabet_spec in Hc as [? _].
Qed.

Lemma subset_construction_equivalence_witness :
  let nfa :=
    NFA.run (NFA.init (Some "S0"))
      [AddState "S0" false; AddTransition "S0" "a" "S0"; AddTransition "S0" "a" "S1";
       AddState "S1" false; AddTransition "S1" "b" "S2"; AddState "S2" true] in
  (∀ X : gset string, elements X ≡ₚ elements X)
  ∧ ∃ dfa, convert_nfa_to_dfa elements nfa = Ok dfa
           ∧ (∀ w, Forall (λ c, is_epsilon c = false) w →
                   (dfa_accepts dfa w ↔ nfa_accepts nfa w))
           ∧ (∀ w, Forall (λ c, c ∈ nfa_alphabet nfa) w →
                   (dfa_accepts dfa w ↔ nfa_accepts nfa w)).
Proof.
  intros nfa. split; [done|].
  exact (subset_construction_equivalence elements (λ X, reflexivity _) nfa).
Defined.

(** X4. The DFA that [convert_nfa_to_dfa] returns is well formed: its start
    state is "S0" and is declared, every state is named "S" followed by a
    number, the final states are declared states, every source and target
    of a transition is a declared state, and no transition is on a
    spelling of epsilon. *)
Theorem subset_construction_well_formed
    (iter_set : gset string → list string)
    (iter_set_perm : ∀ X, iter_set X ≡ₚ elements X)
    (nfa : NFA.t) :
  ∃ dfa, convert_nfa_to_dfa iter_set nfa = Ok dfa
         ∧ DFA.start_state dfa = Some "S0"
         ∧ "S0" ∈ DFA.states dfa
         ∧ (∀ n, n ∈ DFA.states dfa → ∃ i, n = state_name i)
         ∧ DFA.final_states dfa ⊆ DFA.states dfa
         ∧ dfa_within (DFA.states dfa) dfa
         ∧ ∀ n c m, DFA.delta dfa n c = Some m →
                    c ∈ nfa_alphabet nfa ∧ is_epsilon c = false.
Proof.
  destruct (convert_nfa_to_dfa_inv iter_set iter_set_perm nfa)
    as (st & cur & Hconv & Hinv & Hdone).
  exists (cs_dfa st). destruct Hinv. split_and!; try done.
  - apply ci_states0. by eexists.
  - intros n (X & HX)%ci_states0. destruct (ci_names0 X n HX) as (i & _ & ->).
    by exists i.
  - intros n row Hrow. split; [by apply (ci_rows0 n row)|].
    intros c m Hm.
    assert (DFA.delta (cs_dfa st) n c = Some m) as Hd.
    { unfold DFA.delta. rewrite Hrow. done. }
    destruct (ci_sound0 n c m Hd) as (X & _ & _ & _ & HY).
    apply ci_states0. by eexists.
  - intros n c m Hd. destruct (ci_sound0 n c m Hd) as (X & _ & Hc & _).
    split; [done|]. by apply nfa_alphabet_spec in Hc as [? _].
Qed.

Lemma subset_construction_well_formed_witness :
  let nfa :=
    NFA.run (NFA.init (Some "q"))
      [AddState "q" false; AddTransition "q" "ε" "r"; AddTransition "q" "a" "q";
       AddState "r" true; AddTransition "r" "b" "r"] in
  (∀ X : gset string, elements X ≡ₚ elements X)
  ∧ ∃ dfa, convert_nfa_to_dfa elements nfa = Ok dfa
           ∧ DFA.start_state dfa = Some "S0"
           ∧ "S0" ∈ DFA.states dfa
           ∧ (∀ n, n ∈ DFA.states dfa → ∃ i, n = state_name i)
           ∧ DFA.final_states dfa ⊆ DFA.states dfa
           ∧ dfa_within (DFA.states dfa) dfa
           ∧ ∀ n c m, DFA.delta dfa n c = Some m →
                      c ∈ nfa_alphabet nfa ∧ is_epsilon c = false.
Proof.
  intros nfa. split; [done|].
  exact (subset_construction_well_formed elements (λ X, reflexivity _) nfa).
Defined.

(** ** Minimization *)

(** *** Partitions *)

Lemma pairwise_disjoint_app P Q :
  pairwise_disjoint (P ++ Q)
  ↔ pairwise_disjoint P ∧ pairwise_disjoint Q
    ∧ ∀ G H, G ∈ P → H ∈ Q → G ## H.
Proof.
  induction P as [|G0 P IH]; simpl.
  - split; [|naive_solver]. intros HQ. split_and!; [done|done|].
    intros G H HG. by apply elem_of_nil in HG.
  - rewrite IH. split.
    + intros (Hd & HP & HQ & HPQ). split_and!; try done.
      * intros H HH. apply Hd. apply elem_of_app. by left.
      * intros G H [->|HG]%elem_of_cons HH.
        -- apply Hd. apply elem_of_app. by right.
        -- by apply HPQ.
    + intros ((Hd & HP) & HQ & HPQ). split_and!; try done.
      * intros H [HH|HH]%elem_of_app; [by apply Hd|].
        apply HPQ; [by left|done].
      * intros G H HG HH. apply HPQ; [by right|done].
Qed.

Lemma pairwise_disjoint_unique P G H x :
  pairwise_disjoint P → G ∈ P → H ∈ P → x ∈ G → x ∈ H → G = H.
Proof.
  induction P as [|G0 P IH]; simpl.
  { intros _ HG. by apply elem_of_nil in HG. }
  intros [Hd HP] HG HH HxG HxH.
  apply elem_of_cons in HG as [->|HG]; apply elem_of_cons in HH as [->|HH].
  - done.
  - exfalso. by apply (Hd H HH x).
  - exfalso. by apply (Hd G HG x).
  - by apply IH.
Qed.

Lemma partition_length_le (P : list (gset string)) :
  Forall (λ G, G ≠ ∅) P → pairwise_disjoint P →
  (length P ≤ size (⋃ P))%nat.
Proof.
  induction P as [|G P IH]; simpl; intros Hne Hd; [lia|].
  apply Forall_cons in Hne as [HG Hne]. destruct Hd as [Hd HP].
  rewrite (size_union G (⋃ P)).
  - assert (size G ≠ 0)%nat.
    { intros Hs. apply size_empty_iff in Hs. apply HG. by apply leibniz_equiv. }
    specialize (IH Hne HP). lia.
  - intros x HxG (H & HH & HxH)%elem_of_union_list. by apply (Hd H HH x).
Qed.

(** *** The partition index *)

Lemma index_from_bounds i t P :
  index_from i t P = (-1)%Z ∨ (Z.of_nat i ≤ index_from i t P)%Z.
Proof.
  revert i. induction P as [|G P IH]; intros i; simpl; [by left|].
  case_decide; [right; lia|]. destruct (IH (S i)) as [?|?]; [by left|right; lia].
Qed.

Lemma index_from_none i t P :
  index_from i t P = (-1)%Z ↔ ∀ G, G ∈ P → t ∉ G.
Proof.
  revert i. induction P as [|G P IH]; intros i; simpl.
  - split; [|done]. intros _ G HG. by apply elem_of_nil in HG.
  - case_decide as Ht.
    + split; [lia|]. intros Hall. exfalso. by apply (Hall G); [left|].
    + rewrite IH. split.
      * intros Hall G' [->|HG']%elem_of_cons; [done|]. by apply Hall.
      * intros Hall G' HG'. apply Hall. by right.
Qed.

Lemma index_from_lookup i t P j :
  index_from i t P = Z.of_nat (i + j) →
  ∃ G, P !! j = Some G ∧ t ∈ G.
Proof.
  revert i j. induction P as [|G P IH]; intros i j; simpl; [lia|].
  case_decide as Ht.
  - intros Hij. assert (j = 0)%nat as -> by lia. by exists G.
  - intros Hij. destruct j as [|j].
    + destruct (index_from_bounds (S i) t P) as [Hb|Hb]; lia.
    + apply (IH (S i) j). rewrite Hij. f_equal. lia.
Qed.

Lemma pairwise_disjoint_lookup_inj P G x i j :
  pairwise_disjoint P → x ∈ G → P !! i = Some G → P !! j = Some G → i = j.
Proof.
  intros Hd Hx. revert i j Hd.
  induction P as [|G0 P IH]; intros i j Hd Hi Hj; [done|].
  destruct Hd as [Hd0 HP].
  destruct i as [|i]; destruct j as [|j]; simpl in *.
  - done.
  - injection Hi as ->. apply list_elem_of_lookup_2 in Hj.
    by destruct (Hd0 G Hj x).
  - injection Hj as ->. apply list_elem_of_lookup_2 in Hi.
    by destruct (Hd0 G Hi x).
  - f_equal. by apply IH.
Qed.

(** In a partition, two states that are in groups have the same index
    exactly when they are in the same group. *)
Lemma index_from_same_group t u P G :
  pairwise_disjoint P → G ∈ P → t ∈ G →
  (index_from 0 t P = index_from 0 u P ↔ u ∈ G).
Proof.
  intros Hd HG Ht.
  assert (index_from 0 t P ≠ (-1)%Z) as Hnt.
  { rewrite index_from_none. intros Hall. by apply (Hall G). }
  destruct (index_from_bounds 0 t P) as [?|Hb]; [done|].
  destruct (index_from_lookup 0 t P (Z.to_nat (index_from 0 t P)))
    as (G1 & HG1 & Ht1); [simpl; lia|].
  assert (G1 = G) as ->.
  { eapply pairwise_disjoint_unique; try done. by eapply list_elem_of_lookup_2. }
  split.
  - intros Heq. destruct (index_from_lookup 0 u P (Z.to_nat (index_from 0 t P)))
      as (G2 & HG2 & Hu2); [simpl; lia|]. congruence.
  - intros Hu.
    assert (index_from 0 u P ≠ (-1)%Z) as Hnu.
    { rewrite index_from_none. intros Hall. by apply (Hall G). }
    destruct (index_from_bounds 0 u P) as [?|Hbu]; [done|].
    destruct (index_from_lookup 0 u P (Z.to_nat (index_from 0 u P)))
      as (G2 & HG2 & Hu2); [simpl; lia|].
    assert (G2 = G) as ->.
    { eapply pairwise_disjoint_unique; try done. by eapply list_elem_of_lookup_2. }
    assert (Z.to_nat (index_from 0 t P) = Z.to_nat (index_from 0 u P)); [|lia].
    by eapply (pairwise_disjoint_lookup_inj P G t).
Qed.

(** *** One pass of the refinement *)

Lemma refined_false dfa alphabet P Gs R :
  refined dfa alphabet P Gs R false →
  R = Gs ∧ ∀ G x y, G ∈ Gs → x ∈ G → y ∈ G → matches dfa alphabet P x y.
Proof.
  intros H. remember false as b eqn:Hb.
  induction H as [|G Gs R b Hstable _ IH|]; [| |done].
  - split; [done|]. intros G x y HG. by apply elem_of_nil in HG.
  - destruct (IH Hb) as [-> Hall]. split; [done|].
    intros G' x y [->|HG']%elem_of_cons; [apply Hstable|by apply Hall].
Qed.

Lemma refined_length dfa alphabet P Gs R b :
  refined dfa alphabet P Gs R b →
  (length Gs ≤ length R)%nat ∧ (b = true → (length Gs < length R)%nat).
Proof.
  induction 1 as [|G Gs R b _ _ [IH1 IH2]|G first Gs R b _ _ _ [IH1 IH2]]; simpl.
  - split; [lia|done].
  - split; [lia|]. intros Hb. specialize (IH2 Hb). lia.
  - split; lia.
Qed.

Lemma filter_matches_union dfa alphabet P first (G : gset string) :
  filter (λ x, matches dfa alphabet P first x) G
  ∪ filter (λ x, ¬ matches dfa alphabet P first x) G = G.
Proof.
  apply set_eq. intros x. rewrite elem_of_union, !elem_of_filter.
  destruct (decide (matches dfa alphabet P first x)); naive_solver.
Qed.

Lemma refined_union dfa alphabet P Gs R b :
  refined dfa alphabet P Gs R b → ⋃ R = ⋃ Gs.
Proof.
  induction 1 as [|G Gs R b _ _ IH|G first Gs R b _ _ _ IH]; simpl.
  - done.
  - by rewrite IH.
  - rewrite IH, (assoc_L (∪)). by rewrite filter_matches_union.
Qed.

Lemma matches_refl dfa alphabet P x : matches dfa alphabet P x x.
Proof. by intros c _. Qed.

Lemma matches_sym dfa alphabet P x y :
  matches dfa alphabet P x y → matches dfa alphabet P y x.
Proof. intros H c Hc. symmetry. by apply H. Qed.

Lemma matches_trans dfa alphabet P x y z :
  matches dfa alphabet P x y → matches dfa alphabet P y z →
  matches dfa alphabet P x z.
Proof. intros H1 H2 c Hc. etrans; [by apply H1|by apply H2]. Qed.

Lemma refined_nonempty dfa alphabet P Gs R b :
  refined dfa alphabet P Gs R b →
  Forall (λ G, G ≠ ∅) Gs → Forall (λ G, G ≠ ∅) R.
Proof.
  induction 1 as [|G Gs R b _ _ IH|G first Gs R b Hfirst HN _ IH];
    intros Hne.
  - done.
  - apply Forall_cons in Hne as [HG Hne]. constructor; [done|by apply IH].
  - apply Forall_cons in Hne as [HG Hne]. constructor; [|constructor].
    + intros Hempty.
      assert (first ∈ filter (λ x, matches dfa alphabet P first x) G) as Hin.
      { apply elem_of_filter. split; [apply matches_refl|done]. }
      rewrite Hempty in Hin. by apply not_elem_of_empty in Hin.
    + done.
    + by apply IH.
Qed.

Lemma refined_sub dfa alphabet P Gs R b G' :
  refined dfa alphabet P Gs R b → G' ∈ R → ∃ G, G ∈ Gs ∧ G' ⊆ G.
Proof.
  induction 1 as [|G Gs R b _ _ IH|G first Gs R b _ _ _ IH]; intros HG'.
  - by apply elem_of_nil in HG'.
  - apply elem_of_cons in HG' as [->|HG'].
    + exists G. split; [by left|done].
    + destruct (IH HG') as (G0 & HG0 & Hsub). exists G0. split; [by right|done].
  - apply elem_of_cons in HG' as [->|HG'];
      [|apply elem_of_cons in HG' as [->|HG']].
    + exists G. split; [by left|]. intros x [_ ?]%elem_of_filter. done.
    + exists G. split; [by left|]. intros x [_ ?]%elem_of_filter. done.
    + destruct (IH HG') as (G0 & HG0 & Hsub). exists G0. split; [by right|done].
Qed.

Lemma refined_disjoint dfa alphabet P Gs R b :
  refined dfa alphabet P Gs R b →
  pairwise_disjoint Gs → pairwise_disjoint R.
Proof.
  induction 1 as [|G Gs R b _ Href IH|G first Gs R b _ _ Href IH]; simpl.
  - done.
  - intros [Hd HP]. split; [|by apply IH].
    intros H' HH'. destruct (refined_sub _ _ _ _ _ _ H' Href HH') as (H & HH & Hsub).
    specialize (Hd H HH). set_solver.
  - intros [Hd HP]. split_and!.
    + intros H' [->|HH']%elem_of_cons.
      * intros x [Hm _]%elem_of_filter [Hn _]%elem_of_filter. done.
      * destruct (refined_sub _ _ _ _ _ _ H' Href HH') as (H & HH & Hsub).
        specialize (Hd H HH). intros x [_ ?]%elem_of_filter ?. set_solver.
    + intros H' HH'.
      destruct (refined_sub _ _ _ _ _ _ H' Href HH') as (H & HH & Hsub).
      specialize (Hd H HH). intros x [_ ?]%elem_of_filter ?. set_solver.
    + by apply IH.
Qed.

Section Refinement.

Variable iter_set : gset string → list string.
Hypothesis iter_set_perm : ∀ X, iter_set X ≡ₚ elements X.
Variable dfa : DFA.t.
Variable alphabet : gset string.

Lemma is_matching_spec P first x :
  is_matching iter_set dfa alphabet P first x = true
  ↔ matches dfa alphabet P first x.
Proof.
  unfold is_matching, matches, set_Forall. rewrite forallb_forall. split.
  - intros H c Hc. eapply bool_decide_eq_true_1. apply H.
    apply list_elem_of_In. by apply (elem_of_iter_set iter_set iter_set_perm).
  - intros H c Hc. apply bool_decide_eq_true_2. apply H.
    apply list_elem_of_In in Hc.
    by apply (elem_of_iter_set iter_set iter_set_perm) in Hc.
Qed.

Lemma split_fold_spec P first others (M0 N0 : gset string) :
  let groups :=
    foldl (λ (groups : gset string * gset string) state,
             if is_matching iter_set dfa alphabet P first state
             then ({[state]} ∪ groups.1, groups.2)
             else (groups.1, {[state]} ∪ groups.2))
          (M0, N0) others in
  (∀ x, x ∈ groups.1 ↔ x ∈ M0 ∨ (x ∈ others ∧ matches dfa alphabet P first x))
  ∧ (∀ x, x ∈ groups.2 ↔ x ∈ N0 ∨ (x ∈ others ∧ ¬ matches dfa alphabet P first x)).
Proof.
  revert M0 N0. induction others as [|s others IH]; intros M0 N0; simpl.
  - split; intros x; rewrite elem_of_nil; naive_solver.
  - destruct (is_matching iter_set dfa alphabet P first s) eqn:Hs.
    + apply is_matching_spec in Hs.
      destruct (IH ({[s]} ∪ M0) N0) as [IH1 IH2]. simpl in IH1, IH2. split.
      * intros x. rewrite IH1, elem_of_union, elem_of_singleton, elem_of_cons.
        split; [|naive_solver].
        intros [[->|?]|[? ?]]; [right; split; [by left|done]|by left|].
        right. split; [by right|done].
      * intros x. rewrite IH2, elem_of_cons. split; [naive_solver|].
        intros [?|[[->|?] ?]]; [by left|done|right; done].
    + assert (¬ matches dfa alphabet P first s) as Hs'.
      { intros Hm. apply is_matching_spec in Hm. congruence. }
      destruct (IH M0 ({[s]} ∪ N0)) as [IH1 IH2]. simpl in IH1, IH2. split.
      * intros x. rewrite IH1, elem_of_cons. split; [naive_solver|].
        intros [?|[[->|?] ?]]; [by left|done|right; done].
      * intros x. rewrite IH2, elem_of_union, elem_of_singleton, elem_of_cons.
        split; [|naive_solver].
        intros [[->|?]|[? ?]]; [right; split; [by left|done]|by left|].
        right. split; [by right|done].
Qed.

Lemma refine_group_spec P acc G :
  G ≠ ∅ →
  (refine_group iter_set dfa alphabet P acc G = Ok (acc.1 ++ [G], acc.2)
   ∧ ∀ x y, x ∈ G → y ∈ G → matches dfa alphabet P x y)
  ∨ (∃ first, first ∈ G
       ∧ filter (λ x, ¬ matches dfa alphabet P first x) G ≠ ∅
       ∧ refine_group iter_set dfa alphabet P acc G
         = Ok (acc.1 ++ [filter (λ x, matches dfa alphabet P first x) G;
                         filter (λ x, ¬ matches dfa alphabet P first x) G],
               true)).
Proof.
  intros HG. unfold refine_group.
  destruct (decide (size G ≤ 1)%nat) as [Hsize|Hsize].
  { left. split; [done|]. intros x y Hx Hy.
    assert (size G = 1)%nat as Hone.
    { assert (size G ≠ 0)%nat; [|lia].
      intros Hs. apply size_empty_iff in Hs. apply HG. by apply leibniz_equiv. }
    assert (x = y) as -> by (by eapply (size_singleton_inv G)).
    apply matches_refl. }
  destruct (iter_set G) as [|first others] eqn:Hlist.
  { exfalso. pose proof (length_iter_set iter_set iter_set_perm G) as Hlen.
    rewrite Hlist in Hlen. simpl in Hlen. lia. }
  assert (∀ x, x ∈ G ↔ x = first ∨ x ∈ others) as HGelem.
  { intros x. rewrite <- (elem_of_iter_set iter_set iter_set_perm), Hlist.
    apply elem_of_cons. }
  destruct (split_fold_spec P first others {[first]} ∅) as [H1 H2].
  simpl in H1, H2.
  set (groups := foldl _ _ others) in *.
  assert (groups.1 = filter (λ x, matches dfa alphabet P first x) G) as HM.
  { apply set_eq. intros x. rewrite H1, elem_of_filter, HGelem, elem_of_singleton.
    split; [|naive_solver].
    intros [->|[? ?]]; [split; [apply matches_refl|by left]|]. split; [done|by right]. }
  assert (groups.2 = filter (λ x, ¬ matches dfa alphabet P first x) G) as HN.
  { apply set_eq. intros x. rewrite H2, elem_of_filter, HGelem. split.
    - intros [Hx|[? ?]]; [by apply not_elem_of_empty in Hx|]. split; [done|by right].
    - intros [Hm [->|?]]; [destruct Hm; apply matches_refl|]. right. done. }
  destruct (decide (groups.2 = ∅)) as [Hempty|Hsplit].
  - left. split; [done|]. intros x y Hx Hy.
    assert (∀ z, z ∈ G → matches dfa alphabet P first z) as Hall.
    { intros z Hz. destruct (decide (matches dfa alphabet P first z)) as [|Hn]; [done|].
      exfalso. assert (z ∈ groups.2) as Hin.
      { rewrite HN. apply elem_of_filter. done. }
      rewrite Hempty in Hin. by apply not_elem_of_empty in Hin. }
    eapply matches_trans; [apply matches_sym, Hall|apply Hall]; done.
  - right. exists first. split; [apply HGelem; by left|].
    split; [by rewrite <- HN|]. by rewrite HM, HN.
Qed.

Lemma refine_pass_spec P Gs acc b :
  Forall (λ G, G ≠ ∅) Gs →
  ∃ R b', for_each (refine_group iter_set dfa alphabet P) Gs (acc, b)
          = Ok (acc ++ R, b || b')
          ∧ refined dfa alphabet P Gs R b'.
Proof.
  revert acc b. induction Gs as [|G Gs IH]; intros acc b Hne.
  - exists [], false. simpl. rewrite app_nil_r, orb_false_r. split; [done|constructor].
  - apply Forall_cons in Hne as [HG Hne]. simpl.
    destruct (refine_group_spec P (acc, b) G HG)
      as [[-> Hstable]|(first & Hfirst & HN & ->)]; simpl.
    + destruct (IH (acc ++ [G]) b Hne) as (R & b' & -> & Href).
      exists (G :: R), b'. rewrite <- app_assoc. split; [done|].
      by constructor.
    + destruct (IH (acc ++ [filter (λ x, matches dfa alphabet P first x) G;
                            filter (λ x, ¬ matches dfa alphabet P first x) G])
                  true Hne) as (R & b' & -> & Href).
      eexists (_ :: _ :: R), true. rewrite <- app_assoc, orb_true_r. simpl.
      split; [done|]. by eapply refined_split.
Qed.

End Refinement.

(** *** The refinement loop *)

Section RefinementLoop.

Variable iter_set : gset string → list string.
Hypothesis iter_set_perm : ∀ X, iter_set X ≡ₚ elements X.
Variable dfa : DFA.t.
Variable alphabet : gset string.

Lemma refine_loop_spec U fuel P :
  is_partition U P → (size U < fuel + length P)%nat →
  ∃ P', refine_loop iter_set fuel dfa alphabet P = Ok P'
        ∧ is_partition U P'
        ∧ (∀ G', G' ∈ P' → ∃ G, G ∈ P ∧ G' ⊆ G)
        ∧ (∀ G x y, G ∈ P' → x ∈ G → y ∈ G → matches dfa alphabet P' x y).
Proof.
  revert P. induction fuel as [|fuel IH]; intros P (Hne & HU & Hd) Hfuel.
  - pose proof (partition_length_le P Hne Hd) as Hlen. rewrite HU in Hlen. lia.
  - simpl.
    destruct (refine_pass_spec iter_set iter_set_perm dfa alphabet P P [] false Hne)
      as (R & b & -> & Href).
    simpl. destruct b.
    + destruct (IH R) as (P' & -> & Hpart & Hsub & Hstable).
      * split_and!.
        -- by eapply refined_nonempty.
        -- by rewrite (refined_union _ _ _ _ _ _ Href).
        -- by eapply refined_disjoint.
      * destruct (refined_length _ _ _ _ _ _ Href) as [_ Hlt].
        specialize (Hlt eq_refl). lia.
      * exists P'. split_and!; try done.
        intros G' HG'. destruct (Hsub G' HG') as (G1 & HG1 & Hsub1).
        destruct (refined_sub _ _ _ _ _ _ G1 Href HG1) as (G & HG & Hsub2).
        exists G. split; [done|]. set_solver.
    + destruct (refined_false _ _ _ _ _ Href) as [-> Hstable].
      exists P. split_and!; try done.
      intros G HG. exists G. done.
Qed.

End RefinementLoop.

Lemma initial_partition_spec (dfa : DFA.t) :
  is_partition (DFA.states dfa ∪ DFA.final_states dfa) (initial_partition dfa)
  ∧ ∀ G, G ∈ initial_partition dfa →
         G ⊆ DFA.final_states dfa ∨ G ## DFA.final_states dfa.
Proof.
  unfold initial_partition, is_partition.
  destruct (decide (DFA.states dfa ∖ DFA.final_states dfa = ∅)) as [Hn|Hn];
    destruct (decide (DFA.final_states dfa = ∅)) as [Hf|Hf]; simpl.
  - split_and!.
    + constructor.
    + apply set_eq. intros x. set_solver.
    + done.
    + intros G HG. by apply elem_of_nil in HG.
  - split_and!.
    + constructor; [done|constructor].
    + clear Hf. apply set_eq. intros x.
      destruct (decide (x ∈ DFA.final_states dfa)); set_solver.
    + intros H HH. by apply elem_of_nil in HH.
    + done.
    + intros G ->%list_elem_of_singleton. by left.
  - split_and!.
    + constructor; [done|constructor].
    + clear Hn. apply set_eq. intros x. set_solver.
    + intros H HH. by apply elem_of_nil in HH.
    + done.
    + intros G ->%list_elem_of_singleton. right. set_solver.
  - split_and!.
    + constructor; [done|]. constructor; [done|constructor].
    + apply set_eq. intros x. rewrite !elem_of_union, elem_of_difference.
      rewrite elem_of_empty. destruct (decide (x ∈ DFA.final_states dfa)); naive_solver.
    + intros H ->%list_elem_of_singleton. set_solver.
    + intros H HH. by apply elem_of_nil in HH.
    + done.
    + intros G [->| ->%list_elem_of_singleton]%elem_of_cons;
        [right; set_solver|by left].
Qed.

(** *** The refinement splits no bisimilar states *)

Section Coarsest.

Variable dfa : DFA.t.
Variable alphabet : gset string.
Variable Rel : string → string → Prop.
Hypothesis Hbisim : dfa_bisimulation dfa Rel.

Lemma bisimilar_matches P x y :
  is_partition (DFA.states dfa ∪ DFA.final_states dfa) P →
  keeps Rel P → Rel x y → matches dfa alphabet P x y.
Proof.
  intros (_ & HU & Hd) Hkeep Hxy c _.
  destruct (Hbisim x y Hxy) as (_ & _ & _ & Hc). specialize (Hc c).
  assert (∀ t, t ∉ DFA.states dfa ∪ DFA.final_states dfa →
               index_from 0 t P = (-1)%Z) as Hout.
  { intros t Ht. apply index_from_none. intros G HG HtG. apply Ht.
    rewrite <- HU. apply elem_of_union_list. by exists G. }
  destruct (DFA.delta dfa x c) as [t|], (DFA.delta dfa y c) as [u|];
    simpl in *.
  - destruct Hc as [->|[Htu|[Ht Hu]]].
    + done.
    + destruct (Hkeep t u Htu) as (G & HG & Ht & Hu).
      by apply (index_from_same_group t u P G).
    + by rewrite (Hout t), (Hout u).
  - by apply Hout.
  - symmetry. by apply Hout.
  - done.
Qed.

Lemma refined_keeps P Gs R b :
  refined dfa alphabet P Gs R b →
  (∀ x y, Rel x y → matches dfa alphabet P x y) →
  ∀ x y G, Rel x y → G ∈ Gs → x ∈ G → y ∈ G →
           ∃ G', G' ∈ R ∧ x ∈ G' ∧ y ∈ G'.
Proof.
  intros Href Hm.
  induction Href as [|G0 Gs R b _ _ IH|G0 first Gs R b _ _ _ IH];
    intros x y G Hxy HG Hx Hy.
  - by apply elem_of_nil in HG.
  - apply elem_of_cons in HG as [->|HG].
    + exists G0. split; [by left|done].
    + destruct (IH x y G Hxy HG Hx Hy) as (G' & HG' & ? & ?).
      exists G'. split; [by right|done].
  - apply elem_of_cons in HG as [->|HG].
    + pose proof (Hm x y Hxy) as Hmxy.
      destruct (decide (matches dfa alphabet P first x)) as [Hfx|Hfx].
      * eexists. split; [by left|]. rewrite !elem_of_filter.
        split_and!; try done. by eapply matches_trans.
      * eexists. split; [right; by left|]. rewrite !elem_of_filter.
        split_and!; try done. intros Hfy. apply Hfx.
        eapply matches_trans; [done|]. by apply matches_sym.
    + destruct (IH x y G Hxy HG Hx Hy) as (G' & HG' & ? & ?).
      exists G'. split; [do 2 right; done|done].
Qed.

Lemma initial_partition_keeps : keeps Rel (initial_partition dfa).
Proof.
  intros x y Hxy. destruct (Hbisim x y Hxy) as (Hx & Hy & Hfin & _).
  unfold initial_partition.
  destruct (decide (x ∈ DFA.final_states dfa)) as [Hxf|Hxf].
  - exists (DFA.final_states dfa). split_and!; [|done|by apply Hfin].
    rewrite elem_of_app. right. rewrite decide_False by set_solver. by left.
  - exists (DFA.states dfa ∖ DFA.final_states dfa).
    assert (y ∉ DFA.final_states dfa) as Hyf by (by rewrite <- Hfin).
    split_and!; [|set_solver..].
    rewrite elem_of_app. left. rewrite decide_False by set_solver. by left.
Qed.

End Coarsest.

Section CoarsestLoop.

Variable iter_set : gset string → list string.
Hypothesis iter_set_perm : ∀ X, iter_set X ≡ₚ elements X.
Variable dfa : DFA.t.
Variable alphabet : gset string.
Variable Rel : string → string → Prop.
Hypothesis Hbisim : dfa_bisimulation dfa Rel.

Lemma refine_loop_keeps fuel P P' :
  is_partition (DFA.states dfa ∪ DFA.final_states dfa) P →
  refine_loop iter_set fuel dfa alphabet P = Ok P' →
  keeps Rel P → keeps Rel P'.
Proof.
  revert P. induction fuel as [|fuel IH]; intros P Hpart; [done|].
  pose proof Hpart as (Hne & HU & Hd). simpl.
  destruct (refine_pass_spec iter_set iter_set_perm dfa alphabet P P [] false Hne)
    as (R & b & -> & Href).
  simpl. intros Hloop Hkeep.
  assert (keeps Rel R) as HkeepR.
  { intros x y Hxy. destruct (Hkeep x y Hxy) as (G & HG & Hx & Hy).
    eapply (refined_keeps dfa alphabet Rel P P R b Href); try done.
    intros x' y' Hxy'. by apply (bisimilar_matches dfa alphabet Rel Hbisim). }
  destruct b.
  - apply (IH R); try done. split_and!.
    + by eapply refined_nonempty.
    + by rewrite (refined_union _ _ _ _ _ _ Href).
    + by eapply refined_disjoint.
  - by injection Hloop as <-.
Qed.

End CoarsestLoop.

(** *** Rebuilding the DFA from the partition *)

Lemma name_fold_lookup (l : list string) n (nm : gmap string string) x :
  foldl (λ (state_name_map : gmap string string) state,
           <[state := n]> state_name_map) nm l !! x
  = if decide (x ∈ l) then Some n else nm !! x.
Proof.
  revert nm. induction l as [|s l IH]; intros nm; simpl.
  - destruct (decide (x ∈ [])) as [Hin|Hin]; [|done].
    by apply elem_of_nil in Hin.
  - rewrite IH.
    destruct (decide (x ∈ l)) as [Hin|Hin];
      destruct (decide (x ∈ s :: l)) as [Hin'|Hin']; try done.
    + destruct Hin'. by right.
    + apply elem_of_cons in Hin' as [->|?]; [|done]. apply lookup_insert_eq.
    + rewrite lookup_insert_ne; [done|]. intros ->. apply Hin'. by left.
Qed.

Lemma link_fold_spec (nm : gmap string string) source
    (l : list (string * string)) (min_dfa : DFA.t) :
  NoDup l.*1 →
  let min' :=
    foldl (λ min_dfa (item : string * string),
             match nm !! item.2 with
             | Some target_name =>
                 DFA.add_transition min_dfa source item.1 target_name
             | None => min_dfa
             end) min_dfa l in
  DFA.states min' = DFA.states min_dfa
  ∧ DFA.final_states min' = DFA.final_states min_dfa
  ∧ DFA.start_state min' = DFA.start_state min_dfa
  ∧ (∀ s c, s ≠ source → DFA.delta min' s c = DFA.delta min_dfa s c)
  ∧ (∀ c, DFA.delta min' source c
          = match (list_to_map l : gmap string string) !! c ≫= (nm !!.) with
            | Some m => Some m
            | None => DFA.delta min_dfa source c
            end)
  ∧ (∀ n, n ∈ dom (DFA.transitions min') →
          n = source ∨ n ∈ dom (DFA.transitions min_dfa)).
Proof.
  revert min_dfa. induction l as [|[c1 t1] l IH]; intros min_dfa Hnd; simpl.
  - split_and!; try done. intros n Hn. by right.
  - apply NoDup_cons in Hnd as [Hc1 Hnd].
    set (min1 := match nm !! t1 with
                 | Some target_name => DFA.add_transition min_dfa source c1 target_name
                 | None => min_dfa
                 end).
    destruct (IH min1 Hnd) as (Hs & Hf & Hst & Hother & Hsrc & Hdom).
    assert (DFA.states min1 = DFA.states min_dfa
            ∧ DFA.final_states min1 = DFA.final_states min_dfa
            ∧ DFA.start_state min1 = DFA.start_state min_dfa) as (Hs1 & Hf1 & Hst1).
    { unfold min1. by destruct (nm !! t1). }
    assert (∀ s c, DFA.delta min1 s c
                   = if decide (source = s ∧ c1 = c)
                     then match nm !! t1 with
                          | Some m => Some m
                          | None => DFA.delta min_dfa s c
                          end
                     else DFA.delta min_dfa s c) as Hd1.
    { intros s c. unfold min1. destruct (nm !! t1).
      - apply DFA_add_transition_delta.
      - by case_decide. }
    split_and!.
    + by rewrite Hs.
    + by rewrite Hf.
    + by rewrite Hst.
    + intros s c Hne. rewrite Hother by done. rewrite Hd1.
      rewrite decide_False; [done|]. naive_solver.
    + intros c. rewrite Hsrc, Hd1.
      destruct (decide (c1 = c)) as [->|Hne].
      * rewrite lookup_insert_eq. simpl.
        rewrite (not_elem_of_list_to_map_1 l c) by done. simpl.
        rewrite decide_True by done. by destruct (nm !! t1).
      * rewrite lookup_insert_ne by done.
        rewrite decide_False; [done|]. naive_solver.
    + intros n Hn. destruct (Hdom n Hn) as [?|Hn1]; [by left|].
      unfold min1 in Hn1. destruct (nm !! t1); [|by right].
      simpl in Hn1. rewrite dom_insert in Hn1.
      apply elem_of_union in Hn1 as [->%elem_of_singleton|?]; [by left|by right].
Qed.

Section Rebuild.

Variable iter_set : gset string → list string.
Hypothesis iter_set_perm : ∀ X, iter_set X ≡ₚ elements X.
Variable dfa : DFA.t.

Lemma link_group_spec (nm : gmap string string) n (min_dfa : DFA.t) G :
  G ≠ ∅ → (∀ x, x ∈ G → nm !! x = Some n) →
  ∃ rep min', rep ∈ G
    ∧ link_group iter_set dfa nm min_dfa G = Ok min'
    ∧ DFA.states min' = DFA.states min_dfa
    ∧ DFA.final_states min' = DFA.final_states min_dfa
    ∧ DFA.start_state min' = DFA.start_state min_dfa
    ∧ (∀ s c, s ≠ n → DFA.delta min' s c = DFA.delta min_dfa s c)
    ∧ (∀ c, DFA.delta min' n c
            = match DFA.delta dfa rep c ≫= (nm !!.) with
              | Some m => Some m
              | None => DFA.delta min_dfa n c
              end)
    ∧ (∀ s, s ∈ dom (DFA.transitions min') →
            s = n ∨ s ∈ dom (DFA.transitions min_dfa)).
Proof.
  intros HG Hnm. unfold link_group.
  destruct (iter_set G) as [|rep others] eqn:Hlist.
  { exfalso. apply HG. apply set_eq. intros x.
    rewrite <- (elem_of_iter_set iter_set iter_set_perm), Hlist.
    rewrite elem_of_nil. set_solver. }
  assert (rep ∈ G) as Hrep.
  { apply (elem_of_iter_set iter_set iter_set_perm). rewrite Hlist. by left. }
  exists rep. unfold getitem. rewrite (Hnm rep Hrep). simpl.
  destruct (DFA.transitions dfa !! rep) as [row|] eqn:Hrow; simpl.
  - assert (∀ c, DFA.delta dfa rep c = row !! c) as Hdelta.
    { intros c. unfold DFA.delta. by rewrite Hrow. }
    eexists. split; [done|]. split; [done|].
    destruct (link_fold_spec nm n (map_to_list row) min_dfa)
      as (Hs & Hf & Hst & Hother & Hsrc & Hdom).
    { apply NoDup_fst_map_to_list. }
    split_and!; try done.
    intros c. rewrite Hsrc, list_to_map_to_list, Hdelta. done.
  - assert (∀ c, DFA.delta dfa rep c = None) as Hdelta.
    { intros c. unfold DFA.delta. by rewrite Hrow. }
    exists min_dfa. split_and!; try done.
    + intros c. by rewrite Hdelta.
    + intros s Hs. by right.
Qed.

Lemma link_all_spec (nm : gmap string string) (name : gset string → string)
    Gs (min_dfa : DFA.t) :
  Forall (λ G, G ≠ ∅) Gs →
  (∀ G x, G ∈ Gs → x ∈ G → nm !! x = Some (name G)) →
  NoDup (name <$> Gs) →
  ∃ min', for_each (link_group iter_set dfa nm) Gs min_dfa = Ok min'
    ∧ DFA.states min' = DFA.states min_dfa
    ∧ DFA.final_states min' = DFA.final_states min_dfa
    ∧ DFA.start_state min' = DFA.start_state min_dfa
    ∧ (∀ s c, s ∉ name <$> Gs → DFA.delta min' s c = DFA.delta min_dfa s c)
    ∧ (∀ G, G ∈ Gs → ∃ rep, rep ∈ G ∧ ∀ c,
          DFA.delta min' (name G) c
          = match DFA.delta dfa rep c ≫= (nm !!.) with
            | Some m => Some m
            | None => DFA.delta min_dfa (name G) c
            end)
    ∧ (∀ s, s ∈ dom (DFA.transitions min') →
            s ∈ name <$> Gs ∨ s ∈ dom (DFA.transitions min_dfa)).
Proof.
  revert min_dfa. induction Gs as [|G Gs IH]; intros min_dfa Hne Hnm Hnd.
  - exists min_dfa. simpl. split_and!; try done.
    + intros G HG. by apply elem_of_nil in HG.
    + intros s Hs. by right.
  - apply Forall_cons in Hne as [HG Hne]. rewrite fmap_cons in Hnd.
    apply NoDup_cons in Hnd as [Hfresh Hnd]. simpl.
    destruct (link_group_spec nm (name G) min_dfa G HG)
      as (rep & min1 & Hrep & -> & Hs1 & Hf1 & Hst1 & Hother1 & Hsrc1 & Hdom1).
    { intros x Hx. apply (Hnm G); [by left|done]. }
    simpl.
    destruct (IH min1 Hne) as (min' & -> & Hs & Hf & Hst & Hother & Hsrc & Hdom).
    { intros G' x HG' Hx. apply (Hnm G'); [by right|done]. }
    { done. }
    exists min'. split_and!; try congruence.
    + intros s c Hs'. simpl in Hs'.
      rewrite Hother, Hother1; [done| |].
      * intros ->. apply Hs'. by left.
      * intros Hin. apply Hs'. by right.
    + intros G' [->|HG']%elem_of_cons.
      * exists rep. split; [done|]. intros c. rewrite Hother by done. apply Hsrc1.
      * destruct (Hsrc G' HG') as (rep' & Hrep' & Hd). exists rep'. split; [done|].
        intros c. rewrite Hd. rewrite Hother1; [done|].
        intros Heq. apply Hfresh. rewrite <- Heq.
        apply list_elem_of_fmap. by exists G'.
    + intros s Hs'. simpl.
      destruct (Hdom s Hs') as [?|Hs1']; [left; by right|].
      destruct (Hdom1 s Hs1') as [->|?]; [left; by left|by right].
Qed.

End Rebuild.

Lemma DFA_add_state_dom (dfa : DFA.t) name b :
  dom (DFA.transitions (DFA.add_state dfa name b))
  = {[name]} ∪ dom (DFA.transitions dfa).
Proof.
  simpl. destruct (DFA.transitions dfa !! name) as [row|] eqn:Hrow.
  - apply set_eq. intros x. rewrite elem_of_union, elem_of_singleton.
    split; [by right|]. intros [->|?]; [|done]. apply elem_of_dom. by eexists.
  - by rewrite dom_insert_L.
Qed.

Section Naming.

Variable iter_set : gset string → list string.
Hypothesis iter_set_perm : ∀ X, iter_set X ≡ₚ elements X.
Variable dfa : DFA.t.

Lemma name_group_spec (acc : DFA.t * gmap string string) i G :
  let r := name_group iter_set dfa acc (i, G) in
  DFA.states r.1 = {[state_name i]} ∪ DFA.states acc.1
  ∧ (∀ n, n ∈ DFA.final_states r.1
          ↔ n ∈ DFA.final_states acc.1
            ∨ (n = state_name i ∧ ∃ s, s ∈ G ∧ s ∈ DFA.final_states dfa))
  ∧ DFA.start_state r.1
    = match DFA.start_state dfa with
      | Some s => if decide (s ∈ G) then Some (state_name i)
                  else DFA.start_state acc.1
      | None => DFA.start_state acc.1
      end
  ∧ (∀ s c, DFA.delta r.1 s c = DFA.delta acc.1 s c)
  ∧ (∀ x, r.2 !! x = if decide (x ∈ G) then Some (state_name i) else acc.2 !! x)
  ∧ dom (DFA.transitions r.1) = {[state_name i]} ∪ dom (DFA.transitions acc.1).
Proof.
  destruct acc as [min_dfa nm]. unfold name_group. simpl.
  set (b := any_final iter_set (DFA.final_states dfa) G).
  assert (b = true ↔ ∃ s, s ∈ G ∧ s ∈ DFA.final_states dfa) as Hb.
  { apply (any_final_spec iter_set iter_set_perm). }
  set (min1 := DFA.add_state min_dfa (state_name i) b).
  set (min2 := match DFA.start_state dfa with
               | Some s => if decide (s ∈ G)
                           then DFA.set_start_state min1 (state_name i) else min1
               | None => min1
               end).
  assert (DFA.states min2 = DFA.states min1
          ∧ DFA.final_states min2 = DFA.final_states min1
          ∧ DFA.transitions min2 = DFA.transitions min1) as (Hs2 & Hf2 & Ht2).
  { unfold min2. destruct (DFA.start_state dfa) as [s|]; [|done].
    by destruct (decide (s ∈ G)). }
  split_and!.
  - by rewrite Hs2.
  - intros n. rewrite Hf2. unfold min1. simpl. destruct b.
    + rewrite elem_of_union, elem_of_singleton. split.
      * intros [->|?]; [right; split; [done|by apply Hb]|by left].
      * intros [?|[-> _]]; [by right|by left].
    + split; [by left|]. intros [?|[_ Hex]]; [done|].
      apply Hb in Hex. done.
  - unfold min2. destruct (DFA.start_state dfa) as [s|]; [|done].
    by destruct (decide (s ∈ G)).
  - intros s c. unfold DFA.delta. rewrite Ht2.
    apply (DFA_add_state_delta min_dfa (state_name i) b s c).
  - intros x. rewrite name_fold_lookup.
    destruct (decide (x ∈ iter_set G)) as [Hin|Hin];
      destruct (decide (x ∈ G)) as [Hin'|Hin']; try done.
    + by apply (elem_of_iter_set iter_set iter_set_perm) in Hin.
    + by apply (elem_of_iter_set iter_set iter_set_perm) in Hin'.
  - rewrite Ht2. apply DFA_add_state_dom.
Qed.

Lemma named_spec k Ps (acc : DFA.t * gmap string string) :
  pairwise_disjoint Ps →
  let r := foldl (name_group iter_set dfa) acc (enumerate_from k Ps) in
  (∀ n, n ∈ DFA.states r.1
        ↔ n ∈ DFA.states acc.1
          ∨ ∃ j, (j < length Ps)%nat ∧ n = state_name (k + j))
  ∧ (∀ n, n ∈ DFA.final_states r.1
          ↔ n ∈ DFA.final_states acc.1
            ∨ ∃ j G s, Ps !! j = Some G ∧ n = state_name (k + j)
                       ∧ s ∈ G ∧ s ∈ DFA.final_states dfa)
  ∧ (∀ j G s, Ps !! j = Some G → DFA.start_state dfa = Some s → s ∈ G →
              DFA.start_state r.1 = Some (state_name (k + j)))
  ∧ ((∀ s G, DFA.start_state dfa = Some s → G ∈ Ps → s ∉ G) →
     DFA.start_state r.1 = DFA.start_state acc.1)
  ∧ (∀ s c, DFA.delta r.1 s c = DFA.delta acc.1 s c)
  ∧ (∀ j G x, Ps !! j = Some G → x ∈ G → r.2 !! x = Some (state_name (k + j)))
  ∧ (∀ x, (∀ G, G ∈ Ps → x ∉ G) → r.2 !! x = acc.2 !! x)
  ∧ (∀ n, n ∈ dom (DFA.transitions r.1)
          ↔ n ∈ dom (DFA.transitions acc.1)
            ∨ ∃ j, (j < length Ps)%nat ∧ n = state_name (k + j)).
Proof.
  revert k acc. induction Ps as [|G Ps IH]; intros k acc Hd; simpl.
  - split_and!; try done.
    + intros n. split; [by left|]. intros [?|(j & ? & _)]; [done|lia].
    + intros n. split; [by left|]. intros [?|(j & G & s & ? & _)]; done.
    + intros n. split; [by left|]. intros [?|(j & ? & _)]; [done|lia].
  - destruct Hd as [Hd0 Hd].
    destruct (name_group_spec acc k G) as (Hs1 & Hf1 & Hst1 & Hdel1 & Hnm1 & Hdom1).
    set (acc1 := name_group iter_set dfa acc (k, G)) in *.
    destruct (IH (S k) acc1 Hd) as (Hs & Hf & Hst & Hstn & Hdel & Hnm & Hnmn & Hdom).
    simpl in *.
    split_and!.
    + intros n. rewrite Hs, Hs1, elem_of_union, elem_of_singleton. split.
      * intros [[->|?]|(j & Hj & ->)].
        -- right. exists 0%nat. split; [lia|]. f_equal. lia.
        -- by left.
        -- right. exists (S j). split; [lia|]. f_equal. lia.
      * intros [?|(j & Hj & ->)]; [by left; right|].
        destruct j as [|j].
        -- left. left. f_equal. lia.
        -- right. exists j. split; [lia|]. f_equal. lia.
    + intros n. rewrite Hf, Hf1. split.
      * intros [[?|[-> (s & Hs' & Hsf)]]|(j & G' & s & HG' & -> & Hs' & Hsf)].
        -- by left.
        -- right. exists 0%nat, G, s. split_and!; try done. f_equal. lia.
        -- right. exists (S j), G', s. split_and!; try done. f_equal. lia.
      * intros [?|(j & G' & s & HG' & -> & Hs' & Hsf)]; [by left; left|].
        destruct j as [|j]; simpl in HG'.
        -- injection HG' as <-. left. right. split; [f_equal; lia|by exists s].
        -- right. exists j, G', s. split_and!; try done. f_equal. lia.
    + intros j G' s HG' Hstart Hs'. destruct j as [|j]; simpl in HG'.
      * injection HG' as <-. rewrite Hstn.
        -- rewrite Hst1, Hstart. rewrite decide_True by done. f_equal. f_equal. lia.
        -- intros s' G' Hstart' HG' Hs''. assert (s' = s) as -> by congruence.
           by apply (Hd0 G' HG' s).
      * rewrite (Hst j G' s HG' Hstart Hs'). f_equal. f_equal. lia.
    + intros Hnone. rewrite Hstn.
      * rewrite Hst1. destruct (DFA.start_state dfa) as [s|] eqn:Hstart; [|done].
        rewrite decide_False; [done|]. apply (Hnone s G); [done|by left].
      * intros s G' Hstart HG'. apply Hnone; [done|by right].
    + intros s c. by rewrite Hdel, Hdel1.
    + intros j G' x HG' Hx. destruct j as [|j]; simpl in HG'.
      * injection HG' as <-. rewrite Hnmn.
        -- rewrite Hnm1. rewrite decide_True by done. f_equal. f_equal. lia.
        -- intros G' HG' Hx'. by apply (Hd0 G' HG' x).
      * rewrite (Hnm j G' x HG' Hx). f_equal. f_equal. lia.
    + intros x Hnone. rewrite Hnmn.
      * rewrite Hnm1. rewrite decide_False; [done|]. apply Hnone. by left.
      * intros G' HG'. apply Hnone. by right.
    + intros n. rewrite Hdom, Hdom1, elem_of_union, elem_of_singleton. split.
      * intros [[->|?]|(j & Hj & ->)].
        -- right. exists 0%nat. split; [lia|]. f_equal. lia.
        -- by left.
        -- right. exists (S j). split; [lia|]. f_equal. lia.
      * intros [?|(j & Hj & ->)]; [by left; right|].
        destruct j as [|j].
        -- left. left. f_equal. lia.
        -- right. exists j. split; [lia|]. f_equal. lia.
Qed.

End Naming.

Section MinimizeResult.

Variable iter_set : gset string → list string.
Hypothesis iter_set_perm : ∀ X, iter_set X ≡ₚ elements X.
Variable dfa : DFA.t.

Lemma elem_of_partition U P x :
  is_partition U P → x ∈ U ↔ ∃ j G, P !! j = Some G ∧ x ∈ G.
Proof.
  intros (_ & <- & _). rewrite elem_of_union_list. split.
  - intros (G & HG & Hx). apply list_elem_of_lookup in HG as [j Hj]. by exists j, G.
  - intros (j & G & Hj & Hx). exists G. split; [|done].
    by eapply list_elem_of_lookup_2.
Qed.

(** [minimize_dfa] ends for every DFA: the refinement stops within its fuel
    and the rebuilding step raises no exception. *)
Lemma minimize_dfa_spec :
  ∃ P nm min_dfa,
    minimize_dfa iter_set dfa = Ok min_dfa ∧ min_result dfa P nm min_dfa.
Proof.
  unfold minimize_dfa.
  set (U := DFA.states dfa ∪ DFA.final_states dfa).
  destruct (initial_partition_spec dfa) as [Hpart0 Hfin0].
  destruct (refine_loop_spec iter_set iter_set_perm dfa (dfa_alphabet dfa) U
              (S (size U)) (initial_partition dfa) Hpart0)
    as (P & Hloop & Hpart & Hsub & Hstable); [lia|].
  rewrite Hloop. simpl. unfold rebuild.
  pose proof Hpart as (Hne & HU & Hd). unfold U in HU, Hpart.
  destruct (named_spec iter_set iter_set_perm dfa 0 P (DFA.init, ∅) Hd)
    as (Hs & Hf & Hst & Hstn & Hdel & Hnm & Hnmn & Hdom).
  set (named := foldl (name_group iter_set dfa) (DFA.init, ∅) (enumerate_from 0 P))
    in *.
  simpl in Hs, Hf, Hst, Hstn, Hdel, Hnm, Hnmn, Hdom.
  set (name := λ G : gset string,
         default "" (head (iter_set G) ≫= (named.2 !!.))).
  assert (∀ j G, P !! j = Some G → name G = state_name j) as Hname.
  { intros j G Hj. unfold name.
    assert (G ≠ ∅) as HG.
    { eapply (proj1 (Forall_forall _ _) Hne). by eapply list_elem_of_lookup_2. }
    destruct (iter_set G) as [|rep others] eqn:Hlist.
    - exfalso. apply HG. apply set_eq. intros x.
      rewrite <- (elem_of_iter_set iter_set iter_set_perm), Hlist.
      rewrite elem_of_nil. set_solver.
    - simpl. rewrite (Hnm j G rep Hj); [done|].
      apply (elem_of_iter_set iter_set iter_set_perm). rewrite Hlist. by left. }
  assert (∀ n, n ∈ name <$> P ↔ ∃ j, (j < length P)%nat ∧ n = state_name j)
    as Hnames.
  { intros n. rewrite list_elem_of_fmap. split.
    - intros (G & -> & HG). apply list_elem_of_lookup in HG as [j Hj].
      exists j. split; [by eapply lookup_lt_Some|by apply Hname].
    - intros (j & Hj & ->). apply lookup_lt_is_Some in Hj as [G HG].
      exists G. split; [by rewrite (Hname j G)|by eapply list_elem_of_lookup_2]. }
  destruct (link_all_spec iter_set iter_set_perm dfa named.2 name P named.1 Hne)
    as (min_dfa & -> & Hs' & Hf' & Hst' & Hother & Hsrc & Hdom').
  { intros G x HG Hx. apply list_elem_of_lookup in HG as [j Hj].
    rewrite (Hname j G Hj). by apply (Hnm j G). }
  { apply NoDup_alt. intros i j n Hi Hj.
    rewrite list_lookup_fmap in Hi. apply fmap_Some in Hi as (G & HG & ->).
    rewrite list_lookup_fmap in Hj. apply fmap_Some in Hj as (G' & HG' & Heq).
    rewrite (Hname i G HG), (Hname j G' HG') in Heq.
    by apply state_name_inj. }
  exists P, named.2, min_dfa. split; [done|].
  constructor.
  - done.
  - intros G HG. destruct (Hsub G HG) as (G0 & HG0 & Hsub0).
    destruct (Hfin0 G0 HG0) as [?|?]; [left|right]; set_solver.
  - done.
  - intros Rel HRel.
    eapply (refine_loop_keeps iter_set iter_set_perm dfa _ Rel HRel);
      [exact Hpart0|exact Hloop|].
    by apply (initial_partition_keeps dfa Rel).
  - intros n. rewrite Hs', Hs. split; [|by right].
    intros [Hn|?]; [|done]. by apply not_elem_of_empty in Hn.
  - intros n. rewrite Hf', Hf. split; [|by right].
    intros [Hn|?]; [|done]. by apply not_elem_of_empty in Hn.
  - intros j G s Hj Hstart Hs0. rewrite Hst'. by apply (Hst j G s).
  - intros Hnone. rewrite Hst', Hstn; [done|].
    intros s G Hstart HG Hs0. apply (Hnone s Hstart). rewrite <- HU.
    apply elem_of_union_list. by exists G.
  - intros j G Hj.
    destruct (Hsrc G) as (rep & Hrep & Hd').
    { by eapply list_elem_of_lookup_2. }
    exists rep. split; [done|]. intros c.
    rewrite <- (Hname j G Hj), Hd', Hdel.
    by destruct (DFA.delta dfa rep c ≫= (named.2 !!.)).
  - intros n c Hn. rewrite Hother, Hdel; [done|].
    rewrite Hnames. intros (j & Hj & ->). by apply (Hn j).
  - done.
  - intros x Hx. rewrite Hnmn; [done|].
    intros G HG Hx'. apply Hx. rewrite <- HU. apply elem_of_union_list. by exists G.
  - intros n Hn. rewrite Hs', Hs. right.
    destruct (Hdom' n Hn) as [Hn'|Hn'].
    + by apply Hnames.
    + apply Hdom in Hn' as [Hn'|?]; [|done].
      simpl in Hn'. rewrite dom_empty in Hn'. by apply not_elem_of_empty in Hn'.
Qed.

End MinimizeResult.

(** *** The minimized automaton and the language *)

Lemma dfa_alphabet_spec (dfa : DFA.t) c :
  c ∈ dfa_alphabet dfa ↔ ∃ s t, DFA.delta dfa s c = Some t.
Proof.
  unfold dfa_alphabet.
  assert (∀ (items : list (string * gmap string string)) (acc : gset string),
            c ∈ foldl (λ alphabet item,
                         foldl (λ alphabet char, {[char]} ∪ alphabet)
                               alphabet (map_to_list (item.2 : gmap string string)).*1)
                      acc items
            ↔ c ∈ acc ∨ ∃ item, item ∈ items ∧ is_Some (item.2 !! c)) as Houter.
  { induction items as [|item items IH]; intros acc; simpl.
    - split; [by left|]. intros [?|(item & Hin & _)]; [done|].
      by apply elem_of_nil in Hin.
    - rewrite IH, elem_of_foldl_add. split.
      + intros [[?|Hin]|(item' & Hin & Hsome)].
        * by left.
        * right. exists item. split; [by left|].
          apply list_elem_of_fmap in Hin as ([k v] & -> & Hin).
          apply elem_of_map_to_list in Hin. by exists v.
        * right. exists item'. split; [by right|done].
      + intros [?|(item' & Hin & [v Hv])]; [by left; left|].
        apply elem_of_cons in Hin as [->|Hin].
        * left. right. apply list_elem_of_fmap. exists (c, v). split; [done|].
          by apply elem_of_map_to_list.
        * right. exists item'. split; [done|by exists v]. }
  rewrite Houter. unfold DFA.delta. split.
  - intros [Hin|([s row] & Hin & [t Ht])]; [by apply not_elem_of_empty in Hin|].
    exists s, t. apply elem_of_map_to_list in Hin. by rewrite Hin.
  - intros (s & t & Hd). right.
    destruct (DFA.transitions dfa !! s) as [row|] eqn:Hrow; [|done].
    exists (s, row). split; [by apply elem_of_map_to_list|by exists t].
Qed.

Section MinimizeLanguage.

Variable dfa : DFA.t.
Variable P : list (gset string).
Variable nm : gmap string string.
Variable min_dfa : DFA.t.
Hypothesis Hres : min_result dfa P nm min_dfa.

Lemma min_group_of x :
  x ∈ DFA.states dfa ∪ DFA.final_states dfa ↔ ∃ j G, P !! j = Some G ∧ x ∈ G.
Proof. apply elem_of_partition, Hres. Qed.

Lemma min_index_none t :
  index_from 0 t P = (-1)%Z ↔ t ∉ DFA.states dfa ∪ DFA.final_states dfa.
Proof.
  rewrite index_from_none, min_group_of. split.
  - intros Hall (j & G & Hj & Ht). apply (Hall G); [|done].
    by eapply list_elem_of_lookup_2.
  - intros Hno G HG Ht. apply Hno. apply list_elem_of_lookup in HG as [j Hj].
    by exists j, G.
Qed.

(** The row of a minimized state is the row of any member of its group,
    renamed. *)
Lemma min_delta j G x c :
  P !! j = Some G → x ∈ G →
  DFA.delta min_dfa (state_name j) c = DFA.delta dfa x c ≫= (nm !!.).
Proof.
  intros Hj Hx.
  destruct (mr_delta _ _ _ _ Hres j G Hj) as (rep & Hrep & ->).
  assert (G ∈ P) as HG by by eapply list_elem_of_lookup_2.
  destruct (decide (c ∈ dfa_alphabet dfa)) as [Hc|Hc].
  - pose proof (mr_stable _ _ _ _ Hres G rep x HG Hrep Hx c Hc) as Hm.
    simpl in Hm. destruct (mr_partition _ _ _ _ Hres) as (_ & _ & Hd).
    assert (∀ o, get_partition_index o P = (-1)%Z → o ≫= (nm !!.) = None) as Hnone.
    { intros [t|]; simpl; [|done]. intros Ht%min_index_none.
      by apply (mr_unnamed _ _ _ _ Hres). }
    destruct (DFA.delta dfa x c) as [t|] eqn:Hxc; simpl.
    + destruct (decide (t ∈ DFA.states dfa ∪ DFA.final_states dfa)) as [Ht|Ht].
      * apply min_group_of in Ht as (k & G' & Hk & Ht).
        rewrite (mr_names _ _ _ _ Hres k G' t Hk Ht).
        assert (G' ∈ P) as HG' by by eapply list_elem_of_lookup_2.
        destruct (DFA.delta dfa rep c) as [t'|] eqn:Hrc; simpl in *.
        -- symmetry in Hm. apply (index_from_same_group t t' P G' Hd HG' Ht) in Hm.
           by apply (mr_names _ _ _ _ Hres k G').
        -- exfalso. symmetry in Hm.
           by apply (proj1 (index_from_none 0 t P) Hm G').
      * rewrite (mr_unnamed _ _ _ _ Hres t Ht). apply Hnone. rewrite Hm.
        simpl. by apply min_index_none.
    + apply Hnone. by rewrite Hm.
  - assert (∀ s, DFA.delta dfa s c = None) as Hno.
    { intros s. destruct (DFA.delta dfa s c) as [t|] eqn:Hd; [|done].
      exfalso. apply Hc. apply dfa_alphabet_spec. by exists s, t. }
    by rewrite !Hno.
Qed.

(** A member of a final group is final. *)
Lemma min_final j G x :
  P !! j = Some G → x ∈ G →
  state_name j ∈ DFA.final_states min_dfa ↔ x ∈ DFA.final_states dfa.
Proof.
  intros Hj Hx. rewrite (mr_final _ _ _ _ Hres). split.
  - intros (k & G' & s & Hk & Heq & Hs & Hfin).
    apply state_name_inj in Heq as <-. rewrite Hj in Hk. injection Hk as <-.
    destruct (mr_final_groups _ _ _ _ Hres G) as [Hsub|Hdis].
    + by eapply list_elem_of_lookup_2.
    + by apply Hsub.
    + by destruct (Hdis s).
  - intros Hfin. by exists j, G, x.
Qed.

Hypothesis Hclosed : ∀ s c t,
  s ∈ DFA.states dfa ∪ DFA.final_states dfa →
  DFA.delta dfa s c = Some t →
  t ∈ DFA.states dfa ∪ DFA.final_states dfa.

Lemma min_run w : ∀ j G x,
  P !! j = Some G → x ∈ G →
  dfa_run min_dfa (state_name j) w = dfa_run dfa x w ≫= (nm !!.).
Proof.
  induction w as [|c w IH]; intros j G x Hj Hx; simpl.
  - symmetry. by apply (mr_names _ _ _ _ Hres j G).
  - rewrite (min_delta j G x c Hj Hx).
    destruct (DFA.delta dfa x c) as [t|] eqn:Hxc; simpl; [|done].
    assert (t ∈ DFA.states dfa ∪ DFA.final_states dfa) as Ht.
    { apply (Hclosed x c t); [|done]. apply min_group_of. by exists j, G. }
    apply min_group_of in Ht as (k & G' & Hk & Ht).
    rewrite (mr_names _ _ _ _ Hres k G' t Hk Ht). simpl. by apply (IH k G').
Qed.

Lemma dfa_run_closed w : ∀ x y,
  x ∈ DFA.states dfa ∪ DFA.final_states dfa →
  dfa_run dfa x w = Some y →
  y ∈ DFA.states dfa ∪ DFA.final_states dfa.
Proof.
  induction w as [|c w IH]; intros x y Hx; simpl.
  - by intros [= <-].
  - destruct (DFA.delta dfa x c) as [t|] eqn:Hxc; simpl; [|done].
    apply IH. by apply (Hclosed x c t).
Qed.

Lemma min_accepts_from j G x w :
  P !! j = Some G → x ∈ G →
  dfa_accepts_from min_dfa (state_name j) w ↔ dfa_accepts_from dfa x w.
Proof.
  intros Hj Hx. unfold dfa_accepts_from. rewrite (min_run w j G x Hj Hx).
  assert (x ∈ DFA.states dfa ∪ DFA.final_states dfa) as HxU.
  { apply min_group_of. by exists j, G. }
  destruct (dfa_run dfa x w) as [y|] eqn:Hrun; simpl.
  - apply (dfa_run_closed w x y HxU) in Hrun.
    apply min_group_of in Hrun as (k & G' & Hk & Hy).
    rewrite (mr_names _ _ _ _ Hres k G' y Hk Hy). split.
    + intros (qf & [= <-] & Hfin). exists y. split; [done|].
      by apply (min_final k G' y Hk Hy).
    + intros (qf & [= <-] & Hfin). exists (state_name k). split; [done|].
      by apply (min_final k G' y Hk Hy).
  - split; intros (qf & ? & _); done.
Qed.

Lemma min_accepts w :
  (∀ s, DFA.start_state dfa = Some s →
        s ∈ DFA.states dfa ∪ DFA.final_states dfa) →
  dfa_accepts min_dfa w ↔ dfa_accepts dfa w.
Proof.
  intros Hstart. unfold dfa_accepts.
  destruct (DFA.start_state dfa) as [s|] eqn:Hs.
  - destruct (proj1 (min_group_of s) (Hstart s eq_refl)) as (j & G & Hj & HsG).
    rewrite (mr_start _ _ _ _ Hres j G s Hj Hs HsG). split.
    + intros (q0 & [= <-] & Hacc). exists s. split; [done|].
      by apply (min_accepts_from j G s w Hj HsG).
    + intros (q0 & [= <-] & Hacc). exists (state_name j). split; [done|].
      by apply (min_accepts_from j G s w Hj HsG).
  - rewrite (mr_no_start _ _ _ _ Hres); [|intros s Hs'; congruence].
    split; intros (q0 & ? & _); done.
Qed.

End MinimizeLanguage.

(** *** The shape of the minimized automaton *)

Lemma size_named (X : gset string) k :
  (∀ n, n ∈ X ↔ ∃ j, (j < k)%nat ∧ n = state_name j) → size X = k.
Proof.
  intros HX.
  assert (X = list_to_set (state_name <$> seq 0 k)) as ->.
  { apply set_eq. intros n. rewrite HX, elem_of_list_to_set, list_elem_of_fmap.
    split.
    - intros (j & Hj & ->). exists j. split; [done|]. apply elem_of_seq. lia.
    - intros (j & -> & Hj%elem_of_seq). exists j. split; [lia|done]. }
  rewrite size_list_to_set.
  - by rewrite length_fmap, length_seq.
  - apply NoDup_fmap_2; [|apply NoDup_seq].
    intros i j. apply state_name_inj.
Qed.

Section MinimizeShape.

Variable dfa : DFA.t.
Variable P : list (gset string).
Variable nm : gmap string string.
Variable min_dfa : DFA.t.
Hypothesis Hres : min_result dfa P nm min_dfa.

Lemma min_state_count :
  size (DFA.states min_dfa) = length P
  ∧ (length P ≤ size (DFA.states dfa ∪ DFA.final_states dfa))%nat.
Proof.
  split.
  - apply size_named, Hres.
  - destruct (mr_partition _ _ _ _ Hres) as (Hne & HU & Hd).
    rewrite <- HU. by apply partition_length_le.
Qed.

Lemma min_named x n :
  nm !! x = Some n →
  ∃ j G, P !! j = Some G ∧ x ∈ G ∧ n = state_name j.
Proof.
  intros Hx.
  destruct (decide (x ∈ DFA.states dfa ∪ DFA.final_states dfa)) as [HU|HU].
  - apply (min_group_of dfa P nm min_dfa Hres) in HU as (j & G & Hj & HxG).
    exists j, G. split_and!; try done.
    rewrite (mr_names _ _ _ _ Hres j G x Hj HxG) in Hx. by injection Hx.
  - by rewrite (mr_unnamed _ _ _ _ Hres x HU) in Hx.
Qed.

Lemma min_delta_target n c m :
  DFA.delta min_dfa n c = Some m →
  n ∈ DFA.states min_dfa ∧ m ∈ DFA.states min_dfa
  ∧ ∃ x t, nm !! x = Some n ∧ DFA.delta dfa x c = Some t ∧ nm !! t = Some m.
Proof.
  intros Hd.
  destruct (decide (n ∈ DFA.states min_dfa)) as [Hn|Hn].
  - split; [done|].
    apply (mr_states _ _ _ _ Hres) in Hn as (j & Hj & ->).
    apply lookup_lt_is_Some in Hj as [G HG].
    destruct (mr_delta _ _ _ _ Hres j G HG) as (rep & Hrep & Hrow).
    rewrite Hrow in Hd.
    destruct (DFA.delta dfa rep c) as [t|] eqn:Ht; [|done]. simpl in Hd.
    destruct (min_named t m Hd) as (k & G' & Hk & _ & ->).
    split.
    + apply (mr_states _ _ _ _ Hres). exists k. split; [|done].
      by eapply lookup_lt_Some.
    + exists rep, t. split_and!; try done.
      by apply (mr_names _ _ _ _ Hres j G).
  - rewrite (mr_delta_other _ _ _ _ Hres) in Hd; [done|].
    intros j Hj ->. apply Hn. apply (mr_states _ _ _ _ Hres). by exists j.
Qed.

Lemma min_final_declared : DFA.final_states min_dfa ⊆ DFA.states min_dfa.
Proof.
  intros n (j & G & s & Hj & -> & _)%(mr_final _ _ _ _ Hres).
  apply (mr_states _ _ _ _ Hres). exists j. split; [|done].
  by eapply lookup_lt_Some.
Qed.

Lemma min_within : dfa_within (DFA.states min_dfa) min_dfa.
Proof.
  intros n row Hrow. split.
  - apply (mr_rows _ _ _ _ Hres). apply elem_of_dom. by exists row.
  - intros c m Hm.
    assert (DFA.delta min_dfa n c = Some m) as Hd.
    { unfold DFA.delta. by rewrite Hrow. }
    by apply min_delta_target in Hd as (_ & ? & _).
Qed.

Lemma min_start_declared n :
  DFA.start_state min_dfa = Some n →
  n ∈ DFA.states min_dfa
  ∧ ∃ s, DFA.start_state dfa = Some s ∧ nm !! s = Some n.
Proof.
  intros Hn.
  destruct (DFA.start_state dfa) as [s|] eqn:Hs.
  - destruct (decide (s ∈ DFA.states dfa ∪ DFA.final_states dfa)) as [HU|HU].
    + apply (min_group_of dfa P nm min_dfa Hres) in HU as (j & G & Hj & HsG).
      rewrite (mr_start _ _ _ _ Hres j G s Hj Hs HsG) in Hn.
      injection Hn as <-. split.
      * apply (mr_states _ _ _ _ Hres). exists j. split; [|done].
        by eapply lookup_lt_Some.
      * exists s. split; [done|]. by apply (mr_names _ _ _ _ Hres j G).
    + rewrite (mr_no_start _ _ _ _ Hres) in Hn; [done|].
      intros s' Hs'. congruence.
  - rewrite (mr_no_start _ _ _ _ Hres) in Hn; [done|].
    intros s' Hs'. congruence.
Qed.

End MinimizeShape.

(** *** No two states of the minimized automaton are bisimilar *)

Section MinimizeMinimal.

Variable dfa : DFA.t.
Variable P : list (gset string).
Variable nm : gmap string string.
Variable min_dfa : DFA.t.
Hypothesis Hres : min_result dfa P nm min_dfa.


Lemma min_group_member j :
  (j < length P)%nat → ∃ G x, P !! j = Some G ∧ x ∈ G.
Proof.
  intros [G HG]%lookup_lt_is_Some. exists G.
  destruct (mr_partition _ _ _ _ Hres) as (Hne & _ & _).
  assert (G ≠ ∅) as HGne.
  { eapply (proj1 (Forall_forall _ _) Hne). by eapply list_elem_of_lookup_2. }
  apply set_choose_L in HGne as [x Hx]. by exists x.
Qed.

Lemma min_same_name j G x k G' y :
  P !! j = Some G → x ∈ G → P !! k = Some G' → y ∈ G' →
  (∃ H, H ∈ P ∧ x ∈ H ∧ y ∈ H) → j = k.
Proof.
  intros Hj Hx Hk Hy (H & HH & HxH & HyH).
  destruct (mr_partition _ _ _ _ Hres) as (_ & _ & Hd).
  assert (G = H) as ->.
  { eapply (pairwise_disjoint_unique P); try done. by eapply list_elem_of_lookup_2. }
  assert (G' = H) as ->.
  { eapply (pairwise_disjoint_unique P); try done. by eapply list_elem_of_lookup_2. }
  by eapply (pairwise_disjoint_lookup_inj P H x).
Qed.

Variable Rel' : string → string → Prop.
Hypothesis Hbisim : dfa_bisimulation min_dfa Rel'.



End MinimizeMinimal.

Lemma dfa_within_closed U (dfa : DFA.t) s c t :
  dfa_within U dfa → DFA.delta dfa s c = Some t → t ∈ U.
Proof.
  intros Hw Hd. unfold DFA.delta in Hd.
  destruct (DFA.transitions dfa !! s) as [row|] eqn:Hrow; [|done].
  destruct (Hw s row Hrow) as [_ Hrow']. by apply (Hrow' c t).
Qed.

(** X5. [minimize_dfa] returns a DFA for every input DFA, well formed or
    not: the refinement loop ends within its fuel, and neither
    [group_list[0]], [next(iter(group))] nor [state_name_map[rep]] raises.
    The states of the result are named "S0", "S1", ... without gaps, and
    there are at most as many of them as the input has states and final
    states. *)
Theorem minimize_dfa_returns
    (iter_set : gset string → list string)
    (iter_set_perm : ∀ X, iter_set X ≡ₚ elements X)
    (dfa : DFA.t) :
  ∃ min_dfa k,
    minimize_dfa iter_set dfa = Ok min_dfa
    ∧ (∀ n, n ∈ DFA.states min_dfa ↔ ∃ j, (j < k)%nat ∧ n = state_name j)
    ∧ size (DFA.states min_dfa) = k
    ∧ (k ≤ size (DFA.states dfa ∪ DFA.final_states dfa))%nat.
Proof.
  destruct (minimize_dfa_spec iter_set iter_set_perm dfa)
    as (P & nm & min_dfa & Hmin & Hres).
  exists min_dfa, (length P).
  destruct (min_state_count dfa P nm min_dfa Hres) as [Hsize Hle].
  split_and!; try done. apply Hres.
Qed.

Lemma minimize_dfa_returns_witness :
  let dfa :=
    DFA.set_start_state
      (DFA.run DFA.init
         [AddState "A" false; AddTransition "A" "a" "B"; AddTransition "A" "b" "C";
          AddState "B" true; AddTransition "B" "a" "B";
          AddState "C" true; AddTransition "C" "a" "C"]) "A" in
  (∀ X : gset string, elements X ≡ₚ elements X)
  ∧ ∃ min_dfa k,
      minimize_dfa elements dfa = Ok min_dfa
      ∧ (∀ n, n ∈ DFA.states min_dfa ↔ ∃ j, (j < k)%nat ∧ n = state_name j)
      ∧ size (DFA.states min_dfa) = k
      ∧ (k ≤ size (DFA.states dfa ∪ DFA.final_states dfa))%nat.
Proof.
  intros dfa. split; [done|].
  exact (minimize_dfa_returns elements (λ X, reflexivity _) dfa).
Defined.

(** X6. Minimization preserves the language.  When the start state of the
    DFA is one of its states and the target of every transition of a state
    is a state, the DFA that [minimize_dfa] returns accepts exactly the
    words that the input DFA accepts; a missing transition rejects in
    both. *)
Theorem minimize_dfa_preserves_language
    (iter_set : gset string → list string)
    (iter_set_perm : ∀ X, iter_set X ≡ₚ elements X)
    (dfa : DFA.t) :
  (∀ s, DFA.start_state dfa = Some s →
        s ∈ DFA.states dfa ∪ DFA.final_states dfa) →
  (∀ s c t, s ∈ DFA.states dfa ∪ DFA.final_states dfa →
            DFA.delta dfa s c = Some t →
            t ∈ DFA.states dfa ∪ DFA.final_states dfa) →
  ∃ min_dfa, minimize_dfa iter_set dfa = Ok min_dfa
             ∧ ∀ w, dfa_accepts min_dfa w ↔ dfa_accepts dfa w.
Proof.
  intros Hstart Hclosed.
  destruct (minimize_dfa_spec iter_set iter_set_perm dfa)
    as (P & nm & min_dfa & Hmin & Hres).
  exists min_dfa. split; [done|]. intros w.
  by apply (min_accepts dfa P nm min_dfa Hres Hclosed).
Qed.

Lemma minimize_dfa_preserves_language_witness :
  let dfa :=
    DFA.set_start_state
      (DFA.run DFA.init
         [AddState "A" false; AddTransition "A" "a" "B"; AddTransition "A" "b" "C";
          AddState "B" true; AddTransition "B" "a" "B";
          AddState "C" true; AddTransition "C" "a" "C"]) "A" in
  (∀ X : gset string, elements X ≡ₚ elements X)
  ∧ (∀ s, DFA.start_state dfa = Some s →
          s ∈ DFA.states dfa ∪ DFA.final_states dfa)
  ∧ (∀ s c t, s ∈ DFA.states dfa ∪ DFA.final_states dfa →
              DFA.delta dfa s c = Some t →
              t ∈ DFA.states dfa ∪ DFA.final_states dfa)
  ∧ ∃ min_dfa, minimize_dfa elements dfa = Ok min_dfa
               ∧ ∀ w, dfa_accepts min_dfa w ↔ dfa_accepts dfa w.
Proof.
  intros dfa.
  assert (∀ s, DFA.start_state dfa = Some s →
               s ∈ DFA.states dfa ∪ DFA.final_states dfa) as Hstart.
  { intros s [= <-]. refine (bool_decide_unpack _ _). vm_compute. exact I. }
  assert (dfa_within (DFA.states dfa ∪ DFA.final_states dfa) dfa) as Hwithin.
  { refine (bool_decide_unpack _ _). vm_compute. exact I. }
  assert (∀ s c t, s ∈ DFA.states dfa ∪ DFA.final_states dfa →
                   DFA.delta dfa s c = Some t →
                   t ∈ DFA.states dfa ∪ DFA.final_states dfa) as Hclosed.
  { intros s c t _. by apply dfa_within_closed. }
  split; [done|]. split; [exact Hstart|]. split; [exact Hclosed|].
  exact (minimize_dfa_preserves_language elements (λ X, reflexivity _) dfa
           Hstart Hclosed).
Defined.

(** X7. The DFA that [minimize_dfa] returns is well formed, whatever the
    input: its final states are states, every source and every target of
    its transitions is a state, its start state, when it has one, is a
    state, and every symbol of its transitions is a symbol of the
    transitions of the input.  It has a start state when the start state
    of the input is one of the states or final states of the input. *)
Theorem minimize_dfa_well_formed
    (iter_set : gset string → list string)
    (iter_set_perm : ∀ X, iter_set X ≡ₚ elements X)
    (dfa : DFA.t) :
  ∃ min_dfa,
    minimize_dfa iter_set dfa = Ok min_dfa
    ∧ DFA.final_states min_dfa ⊆ DFA.states min_dfa
    ∧ dfa_within (DFA.states min_dfa) min_dfa
    ∧ (∀ n, DFA.start_state min_dfa = Some n → n ∈ DFA.states min_dfa)
    ∧ (∀ s, DFA.start_state dfa = Some s →
            s ∈ DFA.states dfa ∪ DFA.final_states dfa →
            is_Some (DFA.start_state min_dfa))
    ∧ (∀ n c m, DFA.delta min_dfa n c = Some m → c ∈ dfa_alphabet dfa).
Proof.
  destruct (minimize_dfa_spec iter_set iter_set_perm dfa)
    as (P & nm & min_dfa & Hmin & Hres).
  exists min_dfa. split_and!.
  - done.
  - by apply (min_final_declared dfa P nm).
  - by apply (min_within dfa P nm).
  - intros n Hn. by apply (min_start_declared dfa P nm min_dfa Hres) in Hn as [? _].
  - intros s Hs (j & G & Hj & HsG)%(min_group_of dfa P nm min_dfa Hres).
    rewrite (mr_start _ _ _ _ Hres j G s Hj Hs HsG). by eexists.
  - intros n c m Hd.
    apply (min_delta_target dfa P nm min_dfa Hres) in Hd
      as (_ & _ & x & t & _ & Hx & _).
    apply dfa_alphabet_spec. by exists x, t.
Qed.

Lemma minimize_dfa_well_formed_witness :
  let dfa :=
    DFA.set_start_state
      (DFA.run DFA.init
         [AddState "A" false; AddTransition "A" "a" "B"; AddTransition "A" "b" "Z";
          AddState "B" true; AddTransition "B" "a" "B"]) "A" in
  (∀ X : gset string, elements X ≡ₚ elements X)
  ∧ ∃ min_dfa,
      minimize_dfa elements dfa = Ok min_dfa
      ∧ DFA.final_states min_dfa ⊆ DFA.states min_dfa
      ∧ dfa_within (DFA.states min_dfa) min_dfa
      ∧ (∀ n, DFA.start_state min_dfa = Some n → n ∈ DFA.states min_dfa)
      ∧ (∀ s, DFA.start_state dfa = Some s →
              s ∈ DFA.states dfa ∪ DFA.final_states dfa →
              is_Some (DFA.start_state min_dfa))
      ∧ (∀ n c m, DFA.delta min_dfa n c = Some m → c ∈ dfa_alphabet dfa).
Proof.
  intros dfa. split; [done|].
  exact (minimize_dfa_well_formed elements (λ X, reflexivity _) dfa).
Defined.



(** *** Minimization up to the names of the states *)

Section MinimizeGroups.

Variable dfa : DFA.t.
Variable P : list (gset string).
Variable nm : gmap string string.
Variable min_dfa : DFA.t.
Hypothesis Hres : min_result dfa P nm min_dfa.

(** Being in one group is a bisimulation. *)
Lemma min_same_group_bisimulation :
  dfa_bisimulation dfa (λ x y, ∃ G, G ∈ P ∧ x ∈ G ∧ y ∈ G).
Proof.
  intros x y (G & HG & Hx & Hy).
  pose proof HG as [j Hj]%list_elem_of_lookup.
  destruct (mr_partition _ _ _ _ Hres) as (_ & _ & Hd).
  split_and!.
  - apply (min_group_of dfa P nm min_dfa Hres). by exists j, G.
  - apply (min_group_of dfa P nm min_dfa Hres). by exists j, G.
  - rewrite <- (min_final dfa P nm min_dfa Hres j G x Hj Hx).
    by rewrite <- (min_final dfa P nm min_dfa Hres j G y Hj Hy).
  - intros c.
    destruct (decide (c ∈ dfa_alphabet dfa)) as [Hc|Hc].
    + pose proof (mr_stable _ _ _ _ Hres G x y HG Hx Hy c Hc) as Hm.
      simpl in Hm.
      destruct (DFA.delta dfa x c) as [t|], (DFA.delta dfa y c) as [u|];
        simpl in *; try done.
      * destruct (decide (t ∈ DFA.states dfa ∪ DFA.final_states dfa)) as [Ht|Ht].
        -- apply (min_group_of dfa P nm min_dfa Hres) in Ht as (k & G' & Hk & Ht).
           assert (G' ∈ P) as HG' by by eapply list_elem_of_lookup_2.
           right. left. exists G'. split_and!; try done.
           by apply (index_from_same_group t u P G' Hd HG' Ht).
        -- right. right. split; [done|].
           apply (min_index_none dfa P nm min_dfa Hres). rewrite <- Hm.
           by apply (min_index_none dfa P nm min_dfa Hres).
      * by apply (min_index_none dfa P nm min_dfa Hres).
      * by apply (min_index_none dfa P nm min_dfa Hres).
    + assert (∀ s, DFA.delta dfa s c = None) as Hno.
      { intros s. destruct (DFA.delta dfa s c) as [t|] eqn:Hdl; [|done].
        exfalso. apply Hc. apply dfa_alphabet_spec. by exists s, t. }
      by rewrite !Hno.
Qed.

(** Two states have the same name exactly when they are in one group. *)
Lemma min_same_name_iff x y n m :
  nm !! x = Some n → nm !! y = Some m →
  n = m ↔ ∃ G, G ∈ P ∧ x ∈ G ∧ y ∈ G.
Proof.
  intros Hx Hy.
  destruct (min_named dfa P nm min_dfa Hres x n Hx) as (j & G & Hj & HxG & ->).
  destruct (min_named dfa P nm min_dfa Hres y m Hy) as (k & G' & Hk & HyG & ->).
  split.
  - intros Heq%state_name_inj. subst k. rewrite Hj in Hk. injection Hk as <-.
    exists G. split; [by eapply list_elem_of_lookup_2|done].
  - intros Hsame. f_equal.
    by apply (min_same_name dfa P nm min_dfa Hres j G x k G' y).
Qed.

Lemma min_named_total x :
  x ∈ DFA.states dfa ∪ DFA.final_states dfa →
  ∃ n, nm !! x = Some n ∧ n ∈ DFA.states min_dfa.
Proof.
  intros (j & G & Hj & Hx)%(min_group_of dfa P nm min_dfa Hres).
  exists (state_name j). split; [by apply (mr_names _ _ _ _ Hres j G)|].
  apply (mr_states _ _ _ _ Hres). exists j. split; [|done].
  by eapply lookup_lt_Some.
Qed.

Lemma min_state_named n :
  n ∈ DFA.states min_dfa →
  ∃ x, x ∈ DFA.states dfa ∪ DFA.final_states dfa ∧ nm !! x = Some n.
Proof.
  intros (j & Hj & ->)%(mr_states _ _ _ _ Hres).
  destruct (min_group_member dfa P nm min_dfa Hres j Hj) as (G & x & HG & Hx).
  exists x. split; [|by apply (mr_names _ _ _ _ Hres j G)].
  apply (min_group_of dfa P nm min_dfa Hres). by exists j, G.
Qed.

(** The facts about the minimized automaton in terms of the names only. *)
Lemma min_delta_named x n c :
  nm !! x = Some n →
  DFA.delta min_dfa n c = DFA.delta dfa x c ≫= (nm !!.).
Proof.
  intros Hx.
  destruct (min_named dfa P nm min_dfa Hres x n Hx) as (j & G & Hj & HxG & ->).
  by apply (min_delta dfa P nm min_dfa Hres j G).
Qed.

Lemma min_final_named x n :
  nm !! x = Some n →
  n ∈ DFA.final_states min_dfa ↔ x ∈ DFA.final_states dfa.
Proof.
  intros Hx.
  destruct (min_named dfa P nm min_dfa Hres x n Hx) as (j & G & Hj & HxG & ->).
  by apply (min_final dfa P nm min_dfa Hres j G).
Qed.

Lemma min_start_named :
  DFA.start_state min_dfa = DFA.start_state dfa ≫= (nm !!.).
Proof.
  destruct (DFA.start_state dfa) as [s|] eqn:Hs; simpl.
  - destruct (decide (s ∈ DFA.states dfa ∪ DFA.final_states dfa)) as [HU|HU].
    + apply (min_group_of dfa P nm min_dfa Hres) in HU as (j & G & Hj & HsG).
      rewrite (mr_start _ _ _ _ Hres j G s Hj Hs HsG).
      symmetry. by apply (mr_names _ _ _ _ Hres j G).
    + rewrite (mr_unnamed _ _ _ _ Hres s HU).
      apply (mr_no_start _ _ _ _ Hres). intros s' Hs'. congruence.
  - apply (mr_no_start _ _ _ _ Hres). intros s' Hs'. congruence.
Qed.

End MinimizeGroups.

Section MinimizeOfMinimal.

Variable dfa : DFA.t.
Variable P : list (gset string).
Variable nm : gmap string string.
Variable min_dfa : DFA.t.
Hypothesis Hres : min_result dfa P nm min_dfa.
Hypothesis Hwf : dfa_well_formed dfa.
Hypothesis Hminimal :
  ∀ Rel, dfa_bisimulation dfa Rel → ∀ x y, Rel x y → x = y.

Lemma min_of_minimal_isomorphism :
  dfa_isomorphism (λ x, default "" (nm !! x)) dfa min_dfa.
Proof.
  destruct Hwf as (Hstart & Hfinal & Hwithin).
  assert (∀ x, x ∈ DFA.states dfa ↔ x ∈ DFA.states dfa ∪ DFA.final_states dfa)
    as HU by set_solver.
  assert (∀ x, x ∈ DFA.states dfa →
               ∃ n, nm !! x = Some n ∧ n ∈ DFA.states min_dfa) as Hnamed.
  { intros x Hx%HU. by apply (min_named_total dfa P nm min_dfa Hres). }
  split_and!.
  - intros x y Hx Hy.
    destruct (Hnamed x Hx) as (n & Hn & _), (Hnamed y Hy) as (m & Hm & _).
    rewrite Hn, Hm. simpl. intros Heq.
    apply (min_same_name_iff dfa P nm min_dfa Hres x y n m Hn Hm) in Heq.
    by apply (Hminimal _ (min_same_group_bisimulation dfa P nm min_dfa Hres)).
  - intros n. split.
    + intros (x & Hx & Hn)%(min_state_named dfa P nm min_dfa Hres).
      exists x. split; [by apply HU|]. by rewrite Hn.
    + intros (x & Hx & ->). destruct (Hnamed x Hx) as (n & -> & Hn). done.
  - intros x Hx. destruct (Hnamed x Hx) as (n & Hn & _). rewrite Hn. simpl.
    by apply (min_final_named dfa P nm min_dfa Hres).
  - rewrite (min_start_named dfa P nm min_dfa Hres).
    destruct (DFA.start_state dfa) as [s|] eqn:Hs; simpl; [|done].
    destruct (Hnamed s (Hstart s eq_refl)) as (n & Hn & _). by rewrite Hn.
  - intros x c Hx. destruct (Hnamed x Hx) as (n & Hn & _). rewrite Hn. simpl.
    rewrite (min_delta_named dfa P nm min_dfa Hres x n c Hn).
    destruct (DFA.delta dfa x c) as [t|] eqn:Ht; simpl; [|done].
    apply (dfa_within_closed _ _ _ _ _ Hwithin) in Ht.
    destruct (Hnamed t Ht) as (n' & Hn' & _). by rewrite Hn'.
Qed.

End MinimizeOfMinimal.

Section MinimizeTwice.

Variable dfa : DFA.t.
Variables P1 P2 : list (gset string).
Variables nm1 nm2 : gmap string string.
Variables min1 min2 : DFA.t.
Hypothesis Hres1 : min_result dfa P1 nm1 min1.
Hypothesis Hres2 : min_result dfa P2 nm2 min2.

Lemma same_groups_one_way Pa nma mina Pb nmb minb x y n m n' m' :
  min_result dfa Pa nma mina → min_result dfa Pb nmb minb →
  nma !! x = Some n → nma !! y = Some m →
  nmb !! x = Some n' → nmb !! y = Some m' →
  n = m → n' = m'.
Proof.
  intros Ha Hb Hx Hy Hx' Hy' Heq.
  apply (min_same_name_iff dfa Pa nma mina Ha x y n m Hx Hy) in Heq.
  apply (min_same_name_iff dfa Pb nmb minb Hb x y n' m' Hx' Hy').
  by apply (mr_coarsest _ _ _ _ Hb _
              (min_same_group_bisimulation dfa Pa nma mina Ha)).
Qed.

Lemma rename_spec x n1 n2 :
  nm1 !! x = Some n1 → nm2 !! x = Some n2 →
  rename (DFA.states dfa ∪ DFA.final_states dfa) nm1 nm2 n1 = n2.
Proof.
  intros Hx1 Hx2. unfold rename.
  assert (x ∈ DFA.states dfa ∪ DFA.final_states dfa) as HxU.
  { destruct (decide (x ∈ DFA.states dfa ∪ DFA.final_states dfa)); [done|].
    by rewrite (mr_unnamed _ _ _ _ Hres1 x) in Hx1. }
  destruct (filter (λ x, nm1 !! x = Some n1)
              (elements (DFA.states dfa ∪ DFA.final_states dfa)))
    as [|x' l] eqn:Hfilter.
  - exfalso.
    assert (x ∈ filter (λ x, nm1 !! x = Some n1)
                  (elements (DFA.states dfa ∪ DFA.final_states dfa))) as Hin.
    { apply list_elem_of_filter. split; [done|]. by apply elem_of_elements. }
    rewrite Hfilter in Hin. by apply elem_of_nil in Hin.
  - simpl.
    assert (x' ∈ filter (λ x, nm1 !! x = Some n1)
                   (elements (DFA.states dfa ∪ DFA.final_states dfa))) as Hin.
    { rewrite Hfilter. by left. }
    apply list_elem_of_filter in Hin as [Hx1' Hx'U%elem_of_elements].
    destruct (min_named_total dfa P2 nm2 min2 Hres2 x' Hx'U) as (n2' & Hx2' & _).
    rewrite Hx2'. simpl.
    by apply (same_groups_one_way P1 nm1 min1 P2 nm2 min2 x' x n1 n1 n2' n2).
Qed.

Lemma rename_option (o : option string) :
  rename (DFA.states dfa ∪ DFA.final_states dfa) nm1 nm2 <$> (o ≫= (nm1 !!.))
  = o ≫= (nm2 !!.).
Proof.
  destruct o as [t|]; simpl; [|done].
  destruct (decide (t ∈ DFA.states dfa ∪ DFA.final_states dfa)) as [Ht|Ht].
  - destruct (min_named_total dfa P1 nm1 min1 Hres1 t Ht) as (a & Ha & _).
    destruct (min_named_total dfa P2 nm2 min2 Hres2 t Ht) as (b & Hb & _).
    rewrite Ha, Hb. simpl. f_equal. by apply (rename_spec t).
  - by rewrite (mr_unnamed _ _ _ _ Hres1 t Ht), (mr_unnamed _ _ _ _ Hres2 t Ht).
Qed.

Lemma min_twice_isomorphism :
  dfa_isomorphism (rename (DFA.states dfa ∪ DFA.final_states dfa) nm1 nm2)
                  min1 min2.
Proof.
  assert (∀ n, n ∈ DFA.states min1 →
               ∃ x n', nm1 !! x = Some n ∧ nm2 !! x = Some n'
                       ∧ n' ∈ DFA.states min2
                       ∧ rename (DFA.states dfa ∪ DFA.final_states dfa)
                                nm1 nm2 n = n') as Hnamed.
  { intros n (x & HxU & Hx1)%(min_state_named dfa P1 nm1 min1 Hres1).
    destruct (min_named_total dfa P2 nm2 min2 Hres2 x HxU) as (n' & Hx2 & Hn').
    exists x, n'. split_and!; try done. by apply (rename_spec x). }
  split_and!.
  - intros n m Hn Hm.
    destruct (Hnamed n Hn) as (x & n' & Hx1 & Hx2 & _ & ->).
    destruct (Hnamed m Hm) as (y & m' & Hy1 & Hy2 & _ & ->).
    by apply (same_groups_one_way P2 nm2 min2 P1 nm1 min1 x y n' m' n m).
  - intros n'. split.
    + intros (x & HxU & Hx2)%(min_state_named dfa P2 nm2 min2 Hres2).
      destruct (min_named_total dfa P1 nm1 min1 Hres1 x HxU) as (n & Hx1 & Hn).
      exists n. split; [done|]. symmetry. by apply (rename_spec x).
    + intros (n & Hn & ->).
      by destruct (Hnamed n Hn) as (x & n' & _ & _ & ? & ->).
  - intros n Hn. destruct (Hnamed n Hn) as (x & n' & Hx1 & Hx2 & _ & ->).
    rewrite (min_final_named dfa P1 nm1 min1 Hres1 x n Hx1).
    by rewrite (min_final_named dfa P2 nm2 min2 Hres2 x n' Hx2).
  - rewrite (min_start_named dfa P1 nm1 min1 Hres1).
    rewrite (min_start_named dfa P2 nm2 min2 Hres2).
    symmetry. apply rename_option.
  - intros n c Hn. destruct (Hnamed n Hn) as (x & n' & Hx1 & Hx2 & _ & ->).
    rewrite (min_delta_named dfa P1 nm1 min1 Hres1 x n c Hx1).
    rewrite (min_delta_named dfa P2 nm2 min2 Hres2 x n' c Hx2).
    symmetry. apply rename_option.
Qed.

End MinimizeTwice.

(** X9. Minimizing a minimal DFA only renames its states.  When the DFA is
    well formed and no bisimulation relates two different states of it,
    [minimize_dfa] returns a well-formed DFA with as many states, and
    there is a one-to-one renaming of the states of the input to those of
    the result that carries over the start state, finality and every
    transition. *)
Theorem minimize_dfa_of_minimal
    (iter_set : gset string → list string)
    (iter_set_perm : ∀ X, iter_set X ≡ₚ elements X)
    (dfa : DFA.t) :
  dfa_well_formed dfa →
  (∀ Rel, dfa_bisimulation dfa Rel → ∀ x y, Rel x y → x = y) →
  ∃ min_dfa f,
    minimize_dfa iter_set dfa = Ok min_dfa
    ∧ dfa_well_formed min_dfa
    ∧ dfa_isomorphism f dfa min_dfa.
Proof.
  intros Hwf Hminimal.
  destruct (minimize_dfa_spec iter_set iter_set_perm dfa)
    as (P & nm & min_dfa & Hmin & Hres).
  exists min_dfa, (λ x, default "" (nm !! x)). split_and!.
  - done.
  - split_and!.
    + intros n Hn.
      by apply (min_start_declared dfa P nm min_dfa Hres) in Hn as [? _].
    + by apply (min_final_declared dfa P nm).
    + by apply (min_within dfa P nm).
  - by apply (min_of_minimal_isomorphism dfa P).
Qed.

Lemma minimize_dfa_of_minimal_witness :
  let dfa :=
    DFA.set_start_state
      (DFA.run DFA.init
         [AddState "A" false; AddTransition "A" "a" "B";
          AddState "B" true; AddTransition "B" "a" "B"]) "A" in
  (∀ X : gset string, elements X ≡ₚ elements X)
  ∧ dfa_well_formed dfa
  ∧ (∀ Rel, dfa_bisimulation dfa Rel → ∀ x y, Rel x y → x = y)
  ∧ ∃ min_dfa f,
      minimize_dfa elements dfa = Ok min_dfa
      ∧ dfa_well_formed min_dfa
      ∧ dfa_isomorphism f dfa min_dfa.
Proof.
  intros dfa.
  assert (dfa_well_formed dfa) as Hwf.
  { split_and!.
    - intros s [= <-]. refine (bool_decide_unpack _ _). vm_compute. exact I.
    - refine (bool_decide_unpack _ _). vm_compute. exact I.
    - refine (bool_decide_unpack _ _). vm_compute. exact I. }
  assert (∀ Rel, dfa_bisimulation dfa Rel → ∀ x y, Rel x y → x = y) as Hminimal.
  { intros Rel HRel x y Hxy. destruct (HRel x y Hxy) as (Hx & Hy & Hfin & _).
    simpl in Hx, Hy, Hfin. set_solver. }
  split; [done|]. split; [exact Hwf|]. split; [exact Hminimal|].
  exact (minimize_dfa_of_minimal elements (λ X, reflexivity _) dfa Hwf Hminimal).
Defined.

(** X10. The order in which the sets are enumerated changes the result of
    [minimize_dfa] by a renaming of the states only: for two enumeration
    orders and any DFA, there is a one-to-one renaming of the states of
    the first result to those of the second that carries over the start
    state, finality and every transition. *)
Theorem minimize_dfa_unique_up_to_names
    (iter_set1 iter_set2 : gset string → list string)
    (iter_set1_perm : ∀ X, iter_set1 X ≡ₚ elements X)
    (iter_set2_perm : ∀ X, iter_set2 X ≡ₚ elements X)
    (dfa : DFA.t) :
  ∃ min1 min2 f,
    minimize_dfa iter_set1 dfa = Ok min1
    ∧ minimize_dfa iter_set2 dfa = Ok min2
    ∧ dfa_isomorphism f min1 min2.
Proof.
  destruct (minimize_dfa_spec iter_set1 iter_set1_perm dfa)
    as (P1 & nm1 & min1 & Hmin1 & Hres1).
  destruct (minimize_dfa_spec iter_set2 iter_set2_perm dfa)
    as (P2 & nm2 & min2 & Hmin2 & Hres2).
  exists min1, min2,
    (rename (DFA.states dfa ∪ DFA.final_states dfa) nm1 nm2).
  split_and!; try done.
  by apply (min_twice_isomorphism dfa P1 P2).
Qed.

Lemma minimize_dfa_unique_up_to_names_witness :
  let dfa :=
    DFA.set_start_state
      (DFA.run DFA.init
         [AddState "A" false; AddTransition "A" "x" "C";
          AddState "B" false; AddState "C" true]) "A" in
  (∀ X : gset string, elements X ≡ₚ elements X)
  ∧ (∀ X : gset string, reverse (elements X) ≡ₚ elements X)
  ∧ ∃ min1 min2 f,
      minimize_dfa elements dfa = Ok min1
      ∧ minimize_dfa (λ X, reverse (elements X)) dfa = Ok min2
      ∧ dfa_isomorphism f min1 min2.
Proof.
  intros dfa. split; [done|]. split; [intros X; apply reverse_Permutation|].
  exact (minimize_dfa_unique_up_to_names elements (λ X, reverse (elements X))
           (λ X, reflexivity _) (λ X, reverse_Permutation (elements X)) dfa).
Defined.

(** X11. The names that [minimize_dfa] gives to the states do depend on
    the order in which the sets are enumerated: the group that holds the
    first enumerated member of a split group comes first.  So two
    enumeration orders can return different automata for one DFA, here
    with different start states. *)
Theorem minimize_dfa_names_depend_on_order :
  ¬ ∀ (iter_set1 iter_set2 : gset string → list string) (dfa : DFA.t),
      (∀ X, iter_set1 X ≡ₚ elements X) →
      (∀ X, iter_set2 X ≡ₚ elements X) →
      minimize_dfa iter_set1 dfa = minimize_dfa iter_set2 dfa.
Proof.
  intros Hsame.
  specialize (Hsame elements (λ X, reverse (elements X))
    (DFA.set_start_state
       (DFA.run DFA.init
          [AddState "A" false; AddTransition "A" "x" "C";
           AddState "B" false; AddState "C" true]) "A")
    (λ X, reflexivity _) (λ X, reverse_Permutation (elements X))).
  apply (f_equal (λ r, match r with
                       | Ok min_dfa => DFA.start_state min_dfa
                       | _ => None
                       end)) in Hsame.
  vm_compute in Hsame. discriminate Hsame.
Qed.
